(** * amass command-line front end: rate translation, list loading,
      output aggregation and shutdown coordination (main.go)

    A shallow embedding of [main.go] and the properties of its specification.
    Go values are modelled as follows.
    - [int64], [int] and [time.Duration] are [Z] with two's complement
      wrap-around at 64 bits written out ([int64_wrap]).
    - A panicking operation (integer division by zero) returns [None].
    - [string] is [string]; [map[K]V] is [gmap K V]; a slice is a [list].
    - Output performed through [fmt] is collected, in order, in a text buffer;
      the file system is a finite map from paths to contents.
    - The goroutines of [main] are the components of one transition system
      whose labels are the communications on the three channels. *)

From Stdlib Require Import Ascii.
From stdpp Require Import gmap strings list fin_maps pretty.

Open Scope Z_scope.

(** ** Machine integers *)

Definition int64_wrap (z : Z) : Z := (z + 2 ^ 63) `mod` 2 ^ 64 - 2 ^ 63.

Definition in_int64 (z : Z) : Prop := - 2 ^ 63 ≤ z < 2 ^ 63.

Definition int64_add (a b : Z) : Z := int64_wrap (a + b).
Definition int64_mul (a b : Z) : Z := int64_wrap (a * b).

(** Go's [/] on integers truncates toward zero and panics on a zero divisor. *)
Definition int64_div (a b : Z) : option Z :=
  if decide (b = 0) then None else Some (int64_wrap (a `quot` b)).

Lemma int64_wrap_id z : in_int64 z → int64_wrap z = z.
Proof.
  unfold in_int64, int64_wrap. intros Hz.
  rewrite Z.mod_small; lia.
Qed.

Lemma int64_wrap_range z : in_int64 (int64_wrap z).
Proof.
  unfold in_int64, int64_wrap.
  pose proof (Z.mod_pos_bound (z + 2 ^ 63) (2 ^ 64)). lia.
Qed.

Lemma int64_div_Some a b :
  b ≠ 0 → in_int64 (a `quot` b) → int64_div a b = Some (a `quot` b).
Proof.
  intros Hb Hq. unfold int64_div.
  destruct (decide (b = 0)) as [->|_]; [done|].
  by rewrite int64_wrap_id.
Qed.

(** ** Rate translator: [freqToDuration] *)

Module Rate.

(** [time.Duration] counts nanoseconds. *)
Definition Millisecond : Z := 1000000.
Definition Second : Z := 1000000000.

Section translator.
(** [amass.DefaultConfig().Frequency], defined by the engine package. *)
Variable DefaultFrequency : Z.

Definition freqToDuration (freq : Z) : option Z :=
  if decide (0 < freq) then
    let d := freq in
    if decide (d < 60) then
      (* We are dealing with number of seconds *)
      q ← int64_div 60 d; Some (int64_mul q Second)
    else
      (* Make it times per second *)
      d ← int64_div d 60;
      m ← int64_div 1000 d;
      if decide (d < 1000 ∧ 1 < m) then Some (int64_mul m Millisecond)
      else Some DefaultFrequency
  else
    (* Use the default rate *)
    Some DefaultFrequency.

Lemma quot_small_range a b : 0 ≤ a < 2 ^ 63 → 0 < b → in_int64 (a `quot` b).
Proof.
  intros Ha Hb. unfold in_int64.
  rewrite Z.quot_div_nonneg by lia.
  pose proof (Z.div_pos a b). pose proof (Z.div_le_upper_bound a b (2 ^ 63 - 1)).
  nia.
Qed.

Lemma freqToDuration_seconds freq :
  0 < freq < 60 → freqToDuration freq = Some (60 `quot` freq * Second).
Proof.
  intros [Hpos Hlt]. unfold freqToDuration.
  rewrite decide_True, decide_True by done.
  rewrite int64_div_Some by (try apply quot_small_range; lia). simpl.
  f_equal. unfold int64_mul. apply int64_wrap_id.
  rewrite Z.quot_div_nonneg by lia.
  assert (0 ≤ 60 `div` freq ≤ 60).
  { split; [apply Z.div_pos; lia|]. apply Z.div_le_upper_bound; lia. }
  unfold in_int64, Second. lia.
Qed.

(** The per-second branch, for frequencies of one query per second or more
    that fit the machine integer. *)
Lemma freqToDuration_per_second freq :
  60 ≤ freq < 2 ^ 63 →
  freqToDuration freq =
    Some (if decide (freq `quot` 60 < 1000 ∧ 1 < 1000 `quot` (freq `quot` 60))
          then 1000 `quot` (freq `quot` 60) * Millisecond
          else DefaultFrequency).
Proof.
  intros [Hlo Hhi]. unfold freqToDuration.
  rewrite decide_True, decide_False by lia.
  assert (Hd : 1 ≤ freq `quot` 60).
  { rewrite Z.quot_div_nonneg by lia. apply Z.div_le_lower_bound; lia. }
  rewrite int64_div_Some by (try apply quot_small_range; lia). simpl.
  rewrite int64_div_Some by (try apply quot_small_range; lia). simpl.
  destruct (decide _) as [[_ Hm]|]; [|done].
  f_equal. unfold int64_mul. apply int64_wrap_id.
  assert (1000 `quot` (freq `quot` 60) ≤ 1000).
  { rewrite Z.quot_div_nonneg by lia. apply Z.div_le_upper_bound; nia. }
  unfold in_int64, Millisecond. lia.
Qed.

Lemma per_second_rate_high freq :
  30060 ≤ freq → 501 ≤ freq `quot` 60 ∧ 1000 `quot` (freq `quot` 60) ≤ 1.
Proof.
  intros Hf.
  assert (Hd : 501 ≤ freq `quot` 60).
  { rewrite Z.quot_div_nonneg by lia. apply Z.div_le_lower_bound; lia. }
  split; [done|].
  rewrite Z.quot_div_nonneg by lia.
  apply Z.lt_succ_r, Z.div_lt_upper_bound; lia.
Qed.

Lemma per_second_rate_low freq :
  60 ≤ freq < 30060 → 1 ≤ freq `quot` 60 ≤ 500 ∧ 2 ≤ 1000 `quot` (freq `quot` 60).
Proof.
  intros [Hlo Hhi].
  assert (Hd : 1 ≤ freq `quot` 60 ≤ 500).
  { rewrite Z.quot_div_nonneg by lia. split.
    - apply Z.div_le_lower_bound; lia.
    - apply Z.lt_succ_r, Z.div_lt_upper_bound; lia. }
  split; [done|].
  rewrite Z.quot_div_nonneg by lia.
  apply Z.div_le_lower_bound; lia.
Qed.
End translator.

End Rate.

(** ** Text helpers shared by the loaders and the output formatter *)

Definition newline : string := String "010"%char EmptyString.
Definition carriage_return : ascii := "013"%char.

(** Concatenation of pieces of text, in order. *)
Definition concat_strings (pieces : list string) : string :=
  foldr String.append EmptyString pieces.

Lemma app_string_assoc (s1 s2 s3 : string) :
  (s1 +:+ s2) +:+ s3 = s1 +:+ (s2 +:+ s3).
Proof.
  induction s1 as [|c s1 IH]; [done|].
  change (String c ((s1 +:+ s2) +:+ s3) = String c (s1 +:+ (s2 +:+ s3))).
  by rewrite IH.
Qed.

Lemma app_string_nil_r (s : string) : s +:+ EmptyString = s.
Proof.
  induction s as [|c s IH]; [done|].
  change (String c (s +:+ EmptyString) = String c s). by rewrite IH.
Qed.

Lemma concat_strings_snoc pieces piece :
  concat_strings (pieces ++ [piece]) = concat_strings pieces +:+ piece.
Proof.
  induction pieces as [|p pieces IH]; simpl.
  - apply app_string_nil_r.
  - by rewrite IH, app_string_assoc.
Qed.

(** The padding [fmt] writes: [n] blanks. *)
Fixpoint spaces (n : nat) : string :=
  match n with
  | O => EmptyString
  | S n => String " "%char (spaces n)
  end.

(** *** [utf8.RuneCountInString]

    [fmt] measures the width of a [%s] operand in runes.  A byte that does not
    start a well-formed UTF-8 sequence counts as one rune of its own. *)

Definition byte_of (c : ascii) : N := N_of_ascii c.

Definition continuation (lo hi : N) (c : ascii) : bool :=
  ((lo <=? byte_of c) && (byte_of c <=? hi))%N.

(** The [first] and [acceptRanges] tables of package [utf8]: for a leading
    byte, the length of the sequence and the range accepted for the second
    byte; [None] is the table's invalid marker [xx]. *)
Definition first (c : ascii) : option (nat * (N * N)) :=
  let b := byte_of c in
  if (b <? 0x80)%N then Some (1%nat, (0x80, 0xBF)%N)
  else if (b <? 0xC2)%N then None
  else if (b <? 0xE0)%N then Some (2%nat, (0x80, 0xBF)%N)
  else if (b =? 0xE0)%N then Some (3%nat, (0xA0, 0xBF)%N)
  else if (b <? 0xED)%N then Some (3%nat, (0x80, 0xBF)%N)
  else if (b =? 0xED)%N then Some (3%nat, (0x80, 0x9F)%N)
  else if (b <? 0xF0)%N then Some (3%nat, (0x80, 0xBF)%N)
  else if (b =? 0xF0)%N then Some (4%nat, (0x90, 0xBF)%N)
  else if (b <? 0xF4)%N then Some (4%nat, (0x80, 0xBF)%N)
  else if (b =? 0xF4)%N then Some (4%nat, (0x80, 0x8F)%N)
  else None.

(** Number of bytes the decoder consumes for the rune that starts with [c]
    and is followed by [rest]. *)
Definition rune_size (c : ascii) (rest : string) : nat :=
  match first c with
  | None => 1
  | Some (size, (lo, hi)) =>
      match size, rest with
      | 2%nat, String c1 _ =>
          if continuation lo hi c1 then 2 else 1
      | 3%nat, String c1 (String c2 _) =>
          if continuation lo hi c1 && continuation 0x80 0xBF c2 then 3 else 1
      | 4%nat, String c1 (String c2 (String c3 _)) =>
          if continuation lo hi c1 && continuation 0x80 0xBF c2
             && continuation 0x80 0xBF c3 then 4 else 1
      | _, _ => 1
      end
  end%nat.

(** [skip] is the number of bytes still belonging to the rune counted last. *)
Fixpoint rune_count_from (skip : nat) (s : string) : nat :=
  match s with
  | EmptyString => 0
  | String c rest =>
      match skip with
      | S k => rune_count_from k rest
      | O => S (rune_count_from (rune_size c rest - 1) rest)
      end
  end%nat.

Definition RuneCountInString (s : string) : nat := rune_count_from 0 s.

(** *** The [fmt] verbs used by the program *)

(** [%-Ns]: the operand, then blanks up to a width of [N] runes; a longer
    operand is written whole. *)
Definition fmt_s_left (width : nat) (s : string) : string :=
  s +:+ spaces (width - RuneCountInString s).

(** [%d] and [strconv.Itoa]. *)
Definition fmt_d (z : Z) : string := pretty z.

(** Blanks are never part of a multi-byte sequence, so padding adds one rune
    per blank. *)
Lemma continuation_space lo hi : (0x80 ≤ lo)%N → continuation lo hi " "%char = false.
Proof.
  intros Hlo. unfold continuation. apply andb_false_intro1.
  apply N.leb_gt. unfold byte_of. simpl. lia.
Qed.

Lemma first_range c size lo hi : first c = Some (size, (lo, hi)) → (0x80 ≤ lo)%N.
Proof.
  unfold first. repeat case_match; intros [= <- <- <-]; lia.
Qed.

Lemma rune_size_spaces c rest n : rune_size c (rest +:+ spaces n) = rune_size c rest.
Proof.
  unfold rune_size. destruct (first c) as [[size [lo hi]]|] eqn:Hf; [|done].
  pose proof (continuation_space lo hi (first_range _ _ _ _ Hf)) as Hs.
  pose proof (continuation_space 0x80 0xBF (N.le_refl _)) as Hs'.
  destruct size as [|[|[|[|[|size]]]]]; [done|done|..|done].
  - destruct rest as [|c1 rest]; [|done]. destruct n; simpl; [done|]. by rewrite Hs.
  - destruct rest as [|c1 [|c2 rest]]; [| |done].
    + destruct n as [|[|n]]; simpl; [done|done|]. by rewrite Hs.
    + destruct n as [|n]; simpl; [done|]. by rewrite Hs', andb_false_r.
  - destruct rest as [|c1 [|c2 [|c3 rest]]]; [| | |done].
    + destruct n as [|[|[|n]]]; simpl; [done|done|done|]. by rewrite Hs.
    + destruct n as [|[|n]]; simpl; [done|done|]. by rewrite Hs', andb_false_r.
    + destruct n as [|n]; simpl; [done|]. by rewrite Hs', andb_false_r.
Qed.

Lemma rune_size_bound c rest : (rune_size c rest - 1 ≤ String.length rest)%nat.
Proof.
  unfold rune_size. destruct (first c) as [[size [lo hi]]|]; [|simpl; lia].
  destruct size as [|[|[|[|[|size]]]]]; try (simpl; lia).
  - destruct rest; [simpl; lia|]. case_match; simpl; lia.
  - destruct rest as [|c1 [|c2 rest]]; try (simpl; lia). case_match; simpl; lia.
  - destruct rest as [|c1 [|c2 [|c3 rest]]]; try (simpl; lia). case_match; simpl; lia.
Qed.

Lemma rune_count_spaces n : rune_count_from 0 (spaces n) = n.
Proof.
  induction n as [|n IHn]; simpl; [done|].
  replace (rune_size " " (spaces n) - 1)%nat with 0%nat by done.
  by rewrite IHn.
Qed.

Lemma rune_count_from_spaces s : ∀ k n,
  (k ≤ String.length s)%nat →
  rune_count_from k (s +:+ spaces n) = (rune_count_from k s + n)%nat.
Proof.
  induction s as [|c s IH]; intros k n Hk; simpl in *.
  - assert (k = 0)%nat as -> by lia. apply rune_count_spaces.
  - destruct k as [|k].
    + rewrite rune_size_spaces. rewrite IH; [done|]. apply rune_size_bound.
    + apply IH. lia.
Qed.

Lemma fmt_s_left_width width s :
  RuneCountInString (fmt_s_left width s) = (width `max` RuneCountInString s)%nat.
Proof.
  unfold fmt_s_left, RuneCountInString.
  rewrite rune_count_from_spaces by lia. lia.
Qed.

(** ** Wordlist and domain loader *)

Module Loader.

(** [bufio.Scanner] with its default split function [bufio.ScanLines], run
    over the whole input: the tokens are the pieces between line feeds, each
    without one trailing carriage return; a last piece that is not terminated
    by a line feed is a token when it is not empty.

    The scanner keeps the line it is reading in a buffer of at most
    [bufio.MaxScanTokenSize] bytes.  When the bytes of a line fill the buffer
    before its line feed is seen, [Scan] fails with [bufio.ErrTooLong] and
    returns false from then on; the loaders never look at [scanner.Err()], so
    their loop simply ends there.  So a line of [bufio.MaxScanTokenSize]
    bytes or more before its line feed ends the scan, and a line of fewer
    bytes is a token.  The reader is taken to report the end of the input by
    a read of its own, as [os.File] does; this matters only for a last line
    of exactly [bufio.MaxScanTokenSize] bytes without line feed, which is a
    token for a reader that reports the end together with the last bytes. *)
Definition MaxScanTokenSize : N := 65536.

Definition dropCR (rev_line : string) : string :=
  match rev_line with
  | String c rest => if decide (c = carriage_return) then String.rev rest
                     else String.rev rev_line
  | EmptyString => EmptyString
  end.

(** [rev_line] is the line read so far, last byte first, and [size] the
    number of its bytes. *)
Fixpoint scan_from (rev_line : string) (size : N) (data : string) : list string :=
  match data with
  | EmptyString =>
      match rev_line with
      | EmptyString => []
      | _ => [dropCR rev_line]
      end
  | String c rest =>
      if decide (c = "010"%char) then
        dropCR rev_line :: scan_from EmptyString 0 rest
      else if decide (MaxScanTokenSize ≤ size + 1)%N then
        (* the buffer is full and holds no line feed: ErrTooLong *)
        []
      else scan_from (String c rev_line) (size + 1) rest
  end.

Definition ScanLines (data : string) : list string :=
  scan_from EmptyString 0 data.

(** The body shared by both loaders:
    every token [word] of the scanner that is not the empty string is
    appended to the list [words]. *)
Fixpoint scan_words (tokens : list string) (words : list string) : list string :=
  match tokens with
  | [] => words
  | word :: tokens =>
      if decide (word ≠ EmptyString) then scan_words tokens (words ++ [word])
      else scan_words tokens words
  end.

(** The files the process can see: contents by path, and the paths whose
    opening is refused. *)
Record filesystem := {
  files : gmap string string;
  denied : gset string;
}.

Definition os_Open (fs : filesystem) (path : string) : string + string :=
  if decide (path ∈ denied fs) then
    inl ("open " +:+ path +:+ ": permission denied")%string
  else match files fs !! path with
       | Some data => inr data
       | None => inl ("open " +:+ path +:+ ": no such file or directory")%string
       end.

(** [ioutil.WriteFile]: the file is created or truncated and receives the
    data; the result is the error, if any. *)
Definition ioutil_WriteFile (fs : filesystem) (path data : string)
  : filesystem * option string :=
  if decide (path ∈ denied fs) then
    (fs, Some ("open " +:+ path +:+ ": permission denied")%string)
  else ({| files := <[path := data]> (files fs); denied := denied fs |}, None).

(** [getFile] returns the list and what it printed. *)
Definition getFile (fs : filesystem) (path : string) : list string * string :=
  match os_Open fs path with
  | inl err => ([], "Error opening the file: " +:+ err +:+ newline)%string
  | inr data => (scan_words (ScanLines data) [], EmptyString)
  end.

(** [http_Get] is the outcome of fetching [defaultWordlistURL]: the body of
    the response, or [None] when the request failed. *)
Definition getWordlist (fs : filesystem) (http_Get : option string) (path : string)
  : list string * string :=
  if decide (path ≠ EmptyString) then getFile fs path
  else match http_Get with
       | None => ([], EmptyString)
       | Some body => (scan_words (ScanLines body) [], EmptyString)
       end.

(** The loop appends the non-empty tokens to the list, in order. *)
Lemma scan_words_filter tokens acc :
  scan_words tokens acc = acc ++ filter (λ w, w ≠ EmptyString) tokens.
Proof.
  revert acc. induction tokens as [|w tokens IH]; intros acc; simpl.
  - by rewrite app_nil_r.
  - rewrite filter_cons. destruct (decide (w ≠ EmptyString)).
    + rewrite IH. by rewrite <- app_assoc.
    + apply IH.
Qed.

End Loader.

(** ** The engine's discovery event *)

Module amass.

(** Modelled from the spec: the declaration of [AmassRequest] in the engine
    package [amass] (a Discovery Event: hostname, address, netblock, ASN, ISP
    name and origin), with the fields [main.go] reads.  [Netblock] holds the
    text [req.Netblock.String()]. *)
Record AmassRequest := {
  Name : string;
  Address : string;
  Netblock : string;
  ASN : Z;
  ISP : string;
  Tag : string;
  Source : string;
}.

End amass.

(** ** Result aggregator: [updateData], [printSummary], [manageOutput] *)

Module Output.
Import Loader.

Record outputParams := {
  Verbose : bool;
  Sources : bool;
  PrintIPs : bool;
  FileOut : string;
}.

Record asnData := {
  Name : string;
  Netblocks : gmap string Z;
}.

(** [m[k]++] on a [map[K]int]: a missing key reads as zero. *)
Definition incr `{Countable K} (m : gmap K Z) (k : K) : gmap K Z :=
  <[k := int64_add (default 0 (m !! k)) 1]> m.

Definition updateData (req : amass.AmassRequest)
    (tags : gmap string Z) (asns : gmap Z asnData)
  : gmap string Z * gmap Z asnData :=
  let tags := incr tags (amass.Tag req) in
  (* Update the ASN information *)
  let '(data, asns) :=
    match asns !! amass.ASN req with
    | Some data => (data, asns)
    | None =>
        let data := {| Name := amass.ISP req; Netblocks := ∅ |} in
        (data, <[amass.ASN req := data]> asns)
    end in
  (* Increment how many IPs were in this netblock; [data] is the record the
     map entry points to, so the map sees the increment *)
  (tags,
   <[amass.ASN req :=
       {| Name := Name data;
          Netblocks := incr (Netblocks data) (amass.Netblock req) |}]> asns).

(** The line of one result, as built in the [select] case of [manageOutput]. *)
Definition formatLine (params : outputParams) (result : amass.AmassRequest) : string :=
  let line := EmptyString in
  let line :=
    if Sources params
    then line +:+ fmt_s_left 14 ("[" +:+ amass.Source result +:+ "] ")
    else line in
  let line :=
    if PrintIPs params
    then line +:+ ((amass.Name result +:+ "," +:+ amass.Address result) +:+ newline)
    else line +:+ (amass.Name result +:+ newline) in
  line.

(** *** Iteration over maps

    [for k, v := range m] visits every entry once, in an order Go leaves
    unspecified.  The order is an input of the model. *)
Record rangeOrder := {
  range_counts : gmap string Z → list (string * Z);
  range_asns : gmap Z asnData → list (Z * asnData);
}.

Definition range_valid (ro : rangeOrder) : Prop :=
  (∀ m, range_counts ro m ≡ₚ map_to_list m) ∧
  (∀ m, range_asns ro m ≡ₚ map_to_list m).

Definition key_order : rangeOrder :=
  {| range_counts := map_to_list; range_asns := map_to_list |}.

(** The loop over [tags] of [printSummary]; [num] is not assigned in it. *)
Fixpoint print_tags (num length : Z) (kvs : list (string * Z)) : string :=
  match kvs with
  | [] => EmptyString
  | (k, v) :: kvs =>
      (k +:+ ": " +:+ fmt_d v)
      +:+ (if decide (num < length) then ", " else EmptyString)
      +:+ print_tags num length kvs
  end.

(** [for i := 0; i < 8; i++ { fmt.Print("----------") }], by remaining rounds. *)
Fixpoint print_rule (rounds : nat) : string :=
  match rounds with
  | O => EmptyString
  | S rounds => "----------" +:+ print_rule rounds
  end.

Definition tab : string := String "009"%char EmptyString.

Definition print_netblock (entry : string * Z) : string :=
  let '(cidr, ips) := entry in
  let s := fmt_d ips in
  (tab +:+ fmt_s_left 18 cidr +:+ tab +:+ fmt_s_left 3 s +:+ " ")
  +:+ (if decide (ips = 1) then "IP address" else "IP addresses") +:+ newline.

Definition print_asn (ro : rangeOrder) (entry : Z * asnData) : string :=
  let '(asn, data) := entry in
  ("ASN: " +:+ fmt_d asn +:+ " - " +:+ Name data +:+ newline)
  +:+ concat_strings (print_netblock <$> range_counts ro (Netblocks data)).

Definition print_tally (ro : rangeOrder) (tags : gmap string Z) : string :=
  print_tags 1 (Z.of_nat (size tags)) (range_counts ro tags).

Definition printSummary (ro : rangeOrder) (total : Z)
    (tags : gmap string Z) (asns : gmap Z asnData) : string :=
  (newline +:+ fmt_d total +:+ " names discovered - ")
  +:+ print_tally ro tags
  +:+ newline
  +:+ print_rule 8
  +:+ newline
  +:+ concat_strings (print_asn ro <$> range_asns ro asns).

(** *** The goroutine [manageOutput] *)

(** Its local variables. *)
Record locals := {
  total : Z;
  allLines : string;
  tags : gmap string Z;
  asns : gmap Z asnData;
}.

Definition locals_init : locals :=
  {| total := 0; allLines := EmptyString; tags := ∅; asns := ∅ |}.

(** The case [result := <-params.Results]: the new locals and the line
    printed. *)
Definition on_result (params : outputParams) (st : locals)
    (result : amass.AmassRequest) : locals * string :=
  let total := int64_add (total st) 1 in
  let '(tags, asns) := updateData result (tags st) (asns st) in
  let line := formatLine params result in
  (* Add line to the others and print it out *)
  ({| total := total; allLines := allLines st +:+ line;
      tags := tags; asns := asns |}, line).

Inductive outPc := OutSelect | OutReturned.

(** The goroutine together with what it acts upon: standard output, the file
    system and the channel [Done].  [consumed] and [writes] record the results
    received and the calls of [ioutil.WriteFile], for stating properties. *)
Record aggregator := {
  pc : outPc;
  vars : locals;
  stdout : string;
  fsys : filesystem;
  done_closed : bool;
  consumed : list amass.AmassRequest;
  writes : list (string * string);
}.

Definition aggregator_init (fs : filesystem) : aggregator :=
  {| pc := OutSelect; vars := locals_init; stdout := EmptyString; fsys := fs;
     done_closed := false; consumed := []; writes := [] |}.

Definition receive_result (params : outputParams) (a : aggregator)
    (result : amass.AmassRequest) : aggregator :=
  let '(st, line) := on_result params (vars a) result in
  {| pc := OutSelect; vars := st; stdout := stdout a +:+ line; fsys := fsys a;
     done_closed := done_closed a; consumed := consumed a ++ [result];
     writes := writes a |}.

(** The case [<-params.Finish] and the statements after the loop. *)
Definition receive_finish (ro : rangeOrder) (params : outputParams)
    (a : aggregator) : aggregator :=
  let st := vars a in
  (* Check to print the summary information *)
  let out :=
    if Verbose params
    then stdout a +:+ printSummary ro (total st) (tags st) (asns st)
    else stdout a in
  (* Check to output the results to a file; the error is not looked at *)
  let '(fs, log) :=
    if decide (FileOut params ≠ EmptyString)
    then ((ioutil_WriteFile (fsys a) (FileOut params) (allLines st)).1,
          writes a ++ [(FileOut params, allLines st)])
    else (fsys a, writes a) in
  (* Signal that output is complete *)
  {| pc := OutReturned; vars := st; stdout := out; fsys := fs;
     done_closed := true; consumed := consumed a; writes := log |}.

(** *** The loop of [manageOutput] over a sequence of received results *)

Definition consume (params : outputParams) (results : list amass.AmassRequest)
    (st : locals) : locals :=
  foldl (λ st result, (on_result params st result).1) st results.

(** The lines of the results, one after the other. *)
Definition lines_of (params : outputParams)
    (results : list amass.AmassRequest) : string :=
  concat_strings (formatLine params <$> results).

(** Sum of the values of a tally. *)
Definition tally_sum (m : gmap string Z) : Z :=
  map_fold (λ _ v acc, v + acc) 0 m.

Lemma consume_snoc params results result st :
  consume params (results ++ [result]) st
  = (on_result params (consume params results st) result).1.
Proof. unfold consume. by rewrite foldl_app. Qed.

Lemma lines_of_snoc params results result :
  lines_of params (results ++ [result])
  = lines_of params results +:+ formatLine params result.
Proof. unfold lines_of. rewrite fmap_app. apply concat_strings_snoc. Qed.

Lemma on_result_fields params st result :
  on_result params st result
  = ({| total := int64_add (total st) 1;
        allLines := allLines st +:+ formatLine params result;
        tags := (updateData result (tags st) (asns st)).1;
        asns := (updateData result (tags st) (asns st)).2 |},
     formatLine params result).
Proof. unfold on_result. by destruct (updateData _ _ _). Qed.

Lemma updateData_tags req tags asns :
  (updateData req tags asns).1 = incr tags (amass.Tag req).
Proof. unfold updateData. by destruct (asns !! amass.ASN req). Qed.

Lemma updateData_asn_new req tags asns :
  asns !! amass.ASN req = None →
  Name <$> (updateData req tags asns).2 !! amass.ASN req = Some (amass.ISP req).
Proof.
  intros Hnone. unfold updateData. rewrite Hnone. simpl.
  by rewrite lookup_insert_eq.
Qed.

Lemma updateData_asn_known req tags asns asn data :
  asns !! asn = Some data →
  Name <$> (updateData req tags asns).2 !! asn = Some (Name data).
Proof.
  intros Hsome. unfold updateData.
  destruct (decide (amass.ASN req = asn)) as [->|Hne].
  - rewrite Hsome. simpl. by rewrite lookup_insert_eq.
  - destruct (asns !! amass.ASN req); simpl.
    + rewrite lookup_insert_ne by done. by rewrite Hsome.
    + rewrite !lookup_insert_ne by done. by rewrite Hsome.
Qed.

Lemma updateData_asn_other req tags asns asn :
  asns !! asn = None → amass.ASN req ≠ asn →
  (updateData req tags asns).2 !! asn = None.
Proof.
  intros Hnone Hne. unfold updateData.
  destruct (asns !! amass.ASN req); simpl;
    rewrite ?lookup_insert_ne by done; done.
Qed.

(** Once an ASN is registered, no later result changes its name. *)
Lemma consume_asn_known params results : ∀ st asn name,
  Name <$> asns st !! asn = Some name →
  Name <$> asns (consume params results st) !! asn = Some name.
Proof.
  induction results as [|result results IH]; intros st asn name Hname; [done|].
  simpl. apply IH. rewrite on_result_fields. simpl.
  destruct (asns st !! asn) as [data|] eqn:Hsome; [|done].
  injection Hname as <-. by apply updateData_asn_known.
Qed.

Lemma consume_asn_absent params results : ∀ st asn,
  asns st !! asn = None →
  (∀ result, result ∈ results → amass.ASN result ≠ asn) →
  asns (consume params results st) !! asn = None.
Proof.
  induction results as [|result results IH]; intros st asn Hnone Hall; [done|].
  simpl. apply IH.
  - rewrite on_result_fields. simpl. apply updateData_asn_other; [done|].
    apply Hall. left.
  - intros r Hr. apply Hall. by right.
Qed.

Lemma consume_allLines params results : ∀ st,
  allLines (consume params results st) = allLines st +:+ lines_of params results.
Proof.
  induction results as [|result results IH]; intros st; simpl.
  - by rewrite app_string_nil_r.
  - rewrite IH, on_result_fields. simpl. by rewrite app_string_assoc.
Qed.

(** *** Counting *)

Lemma tally_sum_empty : tally_sum ∅ = 0.
Proof. apply map_fold_empty. Qed.

Lemma tally_sum_insert m k v :
  m !! k = None → tally_sum (<[k := v]> m) = v + tally_sum m.
Proof.
  intros Hk. unfold tally_sum.
  rewrite map_fold_insert_L; [done| |done].
  intros; lia.
Qed.

Lemma tally_sum_delete m k v :
  m !! k = Some v → tally_sum m = v + tally_sum (delete k m).
Proof.
  intros Hk. rewrite <- (insert_delete_id m k v) at 1 by done.
  apply tally_sum_insert, lookup_delete_eq.
Qed.

Definition tally_nonneg (m : gmap string Z) : Prop :=
  ∀ k v, m !! k = Some v → 0 ≤ v.

Lemma tally_sum_nonneg m : tally_nonneg m → 0 ≤ tally_sum m.
Proof.
  induction m as [|k v m Hk IH] using map_ind; intros Hm.
  - by rewrite tally_sum_empty.
  - rewrite tally_sum_insert by done.
    assert (0 ≤ v) by (apply (Hm k); by rewrite lookup_insert_eq).
    assert (0 ≤ tally_sum m); [|lia].
    apply IH. intros k' v' Hk'. apply (Hm k').
    rewrite lookup_insert_ne; [done|]. intros ->. congruence.
Qed.

Lemma tally_nonneg_delete m k : tally_nonneg m → tally_nonneg (delete k m).
Proof.
  intros Hm k' v' Hk'. apply (Hm k').
  apply lookup_delete_Some in Hk'. tauto.
Qed.

Lemma tally_sum_incr m k :
  tally_nonneg m → tally_sum m < 2 ^ 63 - 1 →
  tally_sum (incr m k) = tally_sum m + 1 ∧ tally_nonneg (incr m k).
Proof.
  intros Hm Hsum. unfold incr, int64_add.
  destruct (m !! k) as [v|] eqn:Hk; simpl.
  - pose proof (tally_sum_delete _ _ _ Hk) as Hdel.
    pose proof (tally_sum_nonneg _ (tally_nonneg_delete m k Hm)).
    assert (0 ≤ v) by by apply (Hm k).
    rewrite int64_wrap_id by (unfold in_int64; lia).
    split.
    + rewrite <- insert_delete_eq.
      rewrite tally_sum_insert by apply lookup_delete_eq. lia.
    + intros k' v' Hk'. apply lookup_insert_Some in Hk' as [[_ <-]|[_ Hk']]; [lia|].
      by apply (Hm k').
  - rewrite int64_wrap_id by (unfold in_int64; lia).
    split.
    + rewrite tally_sum_insert by done. lia.
    + intros k' v' Hk'. apply lookup_insert_Some in Hk' as [[_ <-]|[_ Hk']]; [lia|].
      by apply (Hm k').
Qed.

(** As long as the count fits the machine integer, [total] is the number of
    results received and the tally adds up to it. *)
Lemma consume_counts params results :
  Z.of_nat (length results) < 2 ^ 63 →
  let st := consume params results locals_init in
  total st = Z.of_nat (length results)
  ∧ tally_sum (tags st) = Z.of_nat (length results)
  ∧ tally_nonneg (tags st).
Proof.
  induction results as [|result results IH] using rev_ind; intros Hlen st.
  - subst st. simpl. rewrite tally_sum_empty. repeat split; [done..|].
    intros k v Hk. by rewrite lookup_empty in Hk.
  - rewrite length_app in Hlen. simpl in Hlen.
    destruct IH as (Htotal & Hsum & Hnonneg); [lia|].
    subst st. rewrite consume_snoc, on_result_fields. simpl.
    rewrite updateData_tags, length_app. simpl.
    destruct (tally_sum_incr (tags (consume params results locals_init))
                (amass.Tag result)) as [Hs Hn]; [done|lia|].
    rewrite Htotal, Hs, Hsum. unfold int64_add.
    rewrite int64_wrap_id by (unfold in_int64; lia).
    repeat split; [lia|lia|done].
Qed.

(** *** The tally line of the summary *)

(** [num] is 1 throughout the loop, so with two entries or more every entry,
    the last one included, is followed by the separator. *)
Lemma print_tags_trailing_separator num length kvs :
  num < length → kvs ≠ [] →
  ∃ body, print_tags num length kvs = body +:+ ", ".
Proof.
  intros Hnum. induction kvs as [|[k v] kvs IH]; intros Hne; [done|].
  simpl. rewrite decide_True by done.
  destruct kvs as [|kv kvs].
  - exists (k +:+ ": " +:+ fmt_d v). simpl. by rewrite app_string_nil_r.
  - destruct IH as [body Hbody]; [done|]. rewrite Hbody.
    exists ((k +:+ ": " +:+ fmt_d v) +:+ ", " +:+ body).
    by rewrite !app_string_assoc.
Qed.

Lemma print_tags_single k v : print_tags 1 1 [(k, v)] = k +:+ ": " +:+ fmt_d v.
Proof. simpl. by rewrite !app_string_nil_r. Qed.

(** The same for the tally of a map, in whatever order [range] visits it. *)
Lemma print_tally_trailing_separator ro (tags : gmap string Z) :
  range_valid ro → (2 ≤ size tags)%nat →
  ∃ body, print_tally ro tags = body +:+ ", ".
Proof.
  intros [Hperm _] Hsize. unfold print_tally.
  apply print_tags_trailing_separator; [lia|].
  intros Hnil. pose proof (Permutation_length (Hperm tags)) as Hlen.
  rewrite Hnil, length_map_to_list in Hlen. simpl in Hlen. lia.
Qed.

Lemma key_order_valid : range_valid key_order.
Proof. by split. Qed.

Lemma print_rule_length : String.length (print_rule 8) = 80%nat.
Proof. reflexivity. Qed.

End Output.

(** ** Shutdown coordination: [main], [catchSignals] and the channels *)

Module Shutdown.
Import Loader Output.

(** Where [main] stands: inside [amass.StartAmass], at [finish <- struct{}{}],
    at [<-done], or returned. *)
Inductive mainPc := MainEngine | MainSendFinish | MainWaitDone | MainReturned.

(** Where [catchSignals] stands: at [<-sigs], at [output <- struct{}{}], at
    [<-done], or past [os.Exit(0)]. *)
Inductive catchPc := CatchWait | CatchSendFinish | CatchWaitDone | CatchExited.

(** The two senders on [finish]. *)
Inductive trigger := EngineComplete | Interrupted.

(** [results] is made with room for 100 requests. *)
Definition results_capacity : nat := 100.

(** The program's goroutines and channels.  [Results] is the content of the
    buffered channel, oldest first.  [finish] is unbuffered and holds nothing:
    a send on it completes together with the receive of [manageOutput].
    [sent] and [fired] record the requests sent by the engine and the sends on
    [finish] that completed. *)
Record world := {
  Results : list amass.AmassRequest;
  output : aggregator;
  main_pc : mainPc;
  catch_pc : catchPc;
  exited : bool;
  sent : list amass.AmassRequest;
  fired : list trigger;
}.

Definition world_init (fs : filesystem) : world :=
  {| Results := []; output := aggregator_init fs; main_pc := MainEngine;
     catch_pc := CatchWait; exited := false; sent := []; fired := [] |}.

(** One communication or control transfer of the running program. *)
Inductive label :=
  | EngineEmit (r : amass.AmassRequest)   (* the engine sends on Output *)
  | EngineReturn                          (* amass.StartAmass returns *)
  | SignalArrive                          (* <-sigs *)
  | SelectResult                          (* select takes <-params.Results *)
  | SelectFinish (by_ : trigger)          (* select takes <-params.Finish *)
  | MainDone                              (* <-done in main, which returns *)
  | CatchDone.                            (* <-done in catchSignals, os.Exit(0) *)

(** [step] is [None] when the communication cannot take place in [w]. *)
Definition step (ro : rangeOrder) (params : outputParams)
    (l : label) (w : world) : option world :=
  if exited w then None else
  match l with
  | EngineEmit r =>
      match main_pc w with
      | MainEngine =>
          if decide (length (Results w) < results_capacity)%nat then
            Some {| Results := Results w ++ [r]; output := output w;
                    main_pc := main_pc w; catch_pc := catch_pc w;
                    exited := false; sent := sent w ++ [r]; fired := fired w |}
          else None
      | _ => None
      end
  | EngineReturn =>
      match main_pc w with
      | MainEngine =>
          Some {| Results := Results w; output := output w;
                  main_pc := MainSendFinish; catch_pc := catch_pc w;
                  exited := false; sent := sent w; fired := fired w |}
      | _ => None
      end
  | SignalArrive =>
      match catch_pc w with
      | CatchWait =>
          Some {| Results := Results w; output := output w;
                  main_pc := main_pc w; catch_pc := CatchSendFinish;
                  exited := false; sent := sent w; fired := fired w |}
      | _ => None
      end
  | SelectResult =>
      match pc (output w), Results w with
      | OutSelect, result :: queue =>
          Some {| Results := queue;
                  output := receive_result params (output w) result;
                  main_pc := main_pc w; catch_pc := catch_pc w;
                  exited := false; sent := sent w; fired := fired w |}
      | _, _ => None
      end
  | SelectFinish EngineComplete =>
      match pc (output w), main_pc w with
      | OutSelect, MainSendFinish =>
          Some {| Results := Results w;
                  output := receive_finish ro params (output w);
                  main_pc := MainWaitDone; catch_pc := catch_pc w;
                  exited := false; sent := sent w;
                  fired := fired w ++ [EngineComplete] |}
      | _, _ => None
      end
  | SelectFinish Interrupted =>
      match pc (output w), catch_pc w with
      | OutSelect, CatchSendFinish =>
          Some {| Results := Results w;
                  output := receive_finish ro params (output w);
                  main_pc := main_pc w; catch_pc := CatchWaitDone;
                  exited := false; sent := sent w;
                  fired := fired w ++ [Interrupted] |}
      | _, _ => None
      end
  | MainDone =>
      match main_pc w with
      | MainWaitDone =>
          if done_closed (output w) then
            Some {| Results := Results w; output := output w;
                    main_pc := MainReturned; catch_pc := catch_pc w;
                    exited := true; sent := sent w; fired := fired w |}
          else None
      | _ => None
      end
  | CatchDone =>
      match catch_pc w with
      | CatchWaitDone =>
          if done_closed (output w) then
            Some {| Results := Results w; output := output w;
                    main_pc := main_pc w; catch_pc := CatchExited;
                    exited := true; sent := sent w; fired := fired w |}
          else None
      | _ => None
      end
  end.

(** A run follows a schedule: the choices of the Go scheduler, of [select],
    of the engine and of the operator. *)
Fixpoint run (ro : rangeOrder) (params : outputParams)
    (schedule : list label) (w : world) : option world :=
  match schedule with
  | [] => Some w
  | l :: schedule => w' ← step ro params l w; run ro params schedule w'
  end.

(** *** Invariant of the running program *)

Section invariant.
Variable ro : rangeOrder.
Variable params : outputParams.
(** The file system when the program starts. *)
Variable fs0 : filesystem.

Definition summary_of (st : locals) : string :=
  if Verbose params then printSummary ro (total st) (tags st) (asns st)
  else EmptyString.

(** What [manageOutput] leaves behind after the loop: the calls of
    [ioutil.WriteFile] and the file system. *)
Definition flushed (st : locals) : list (string * string) * filesystem :=
  if decide (FileOut params ≠ EmptyString)
  then ([(FileOut params, allLines st)],
        (ioutil_WriteFile fs0 (FileOut params) (allLines st)).1)
  else ([], fs0).

Record coherent (w : world) : Prop := {
  coh_vars :
    vars (output w) = consume params (consumed (output w)) locals_init;
  coh_sent : sent w = consumed (output w) ++ Results w;
  coh_select :
    pc (output w) = OutSelect →
    fired w = [] ∧ done_closed (output w) = false
    ∧ writes (output w) = [] ∧ fsys (output w) = fs0
    ∧ stdout (output w) = lines_of params (consumed (output w));
  coh_returned :
    pc (output w) = OutReturned →
    length (fired w) = 1%nat ∧ done_closed (output w) = true
    ∧ (writes (output w), fsys (output w)) = flushed (vars (output w))
    ∧ stdout (output w)
      = lines_of params (consumed (output w)) +:+ summary_of (vars (output w));
}.

Lemma coherent_init : coherent (world_init fs0).
Proof. split; simpl; try done; intros _; by repeat split. Qed.

Lemma receive_finish_fields a :
  receive_finish ro params a
  = {| pc := OutReturned; vars := vars a;
       stdout := if Verbose params
                 then stdout a +:+ printSummary ro (total (vars a))
                                     (tags (vars a)) (asns (vars a))
                 else stdout a;
       fsys := if decide (FileOut params ≠ EmptyString)
               then (ioutil_WriteFile (fsys a) (FileOut params)
                       (allLines (vars a))).1
               else fsys a;
       done_closed := true; consumed := consumed a;
       writes := if decide (FileOut params ≠ EmptyString)
                 then writes a ++ [(FileOut params, allLines (vars a))]
                 else writes a |}.
Proof. unfold receive_finish. by destruct (decide _). Qed.

Lemma receive_result_fields a result :
  receive_result params a result
  = {| pc := OutSelect; vars := (on_result params (vars a) result).1;
       stdout := stdout a +:+ formatLine params result; fsys := fsys a;
       done_closed := done_closed a; consumed := consumed a ++ [result];
       writes := writes a |}.
Proof. unfold receive_result. by rewrite on_result_fields. Qed.

Lemma coherent_finish w by_ main catch :
  coherent w → pc (output w) = OutSelect →
  coherent {| Results := Results w;
              output := receive_finish ro params (output w);
              main_pc := main; catch_pc := catch; exited := false;
              sent := sent w; fired := fired w ++ [by_] |}.
Proof.
  intros [Hvars Hsent Hsel _] Hpc.
  destruct (Hsel Hpc) as (Hfired & Hdone & Hwrites & Hfs & Hout).
  rewrite receive_finish_fields.
  split; simpl; try done. intros _.
  rewrite Hfired, Hwrites, Hfs, Hout. unfold flushed, summary_of.
  repeat split; try done.
  - by destruct (decide _).
  - destruct (Verbose params); [done|]. by rewrite app_string_nil_r.
Qed.

Lemma step_coherent l w w' :
  coherent w → step ro params l w = Some w' → coherent w'.
Proof.
  intros Hw Hstep. unfold step in Hstep.
  destruct (exited w); [done|].
  destruct l as [r| | | |[|]| |].
  - destruct (main_pc w); try done. case_decide; [|done].
    injection Hstep as <-. destruct Hw as [Hvars Hsent Hsel Hret].
    split; simpl; try done. by rewrite Hsent, app_assoc.
  - destruct (main_pc w); try done. injection Hstep as <-.
    destruct Hw. by split.
  - destruct (catch_pc w); try done. injection Hstep as <-.
    destruct Hw. by split.
  - destruct (pc (output w)) eqn:Hpc; [|done].
    destruct (Results w) as [|result queue] eqn:Hq; [done|].
    injection Hstep as <-. destruct Hw as [Hvars Hsent Hsel _].
    destruct (Hsel Hpc) as (Hfired & Hdone & Hwrites & Hfs & Hout).
    rewrite receive_result_fields.
    split; simpl; try done.
    + by rewrite consume_snoc, Hvars.
    + by rewrite Hsent, Hq, <- app_assoc.
    + intros _. repeat split; try done. by rewrite lines_of_snoc, Hout.
  - destruct (pc (output w)) eqn:Hpc; [|done].
    destruct (main_pc w); try done. injection Hstep as <-.
    by apply coherent_finish.
  - destruct (pc (output w)) eqn:Hpc; [|done].
    destruct (catch_pc w); try done. injection Hstep as <-.
    by apply coherent_finish.
  - destruct (main_pc w); try done. destruct (done_closed (output w)); [|done].
    injection Hstep as <-. destruct Hw. by split.
  - destruct (catch_pc w); try done. destruct (done_closed (output w)); [|done].
    injection Hstep as <-. destruct Hw. by split.
Qed.

Lemma run_coherent schedule : ∀ w w',
  coherent w → run ro params schedule w = Some w' → coherent w'.
Proof.
  induction schedule as [|l schedule IH]; intros w w' Hw Hrun; simpl in Hrun.
  - by injection Hrun as <-.
  - destruct (step ro params l w) as [w1|] eqn:Hstep; [|done].
    simpl in Hrun. eapply IH; [|done]. by eapply step_coherent.
Qed.

(** Once [done] is closed, [manageOutput] has returned. *)
Lemma coherent_done w :
  coherent w → done_closed (output w) = true → pc (output w) = OutReturned.
Proof.
  intros Hw Hdone. destruct (pc (output w)) eqn:Hpc; [|done].
  destruct (coh_select w Hw Hpc) as (_ & Hd & _). congruence.
Qed.

(** After [manageOutput] has returned no communication reaches it: the
    goroutine, its output and the completed sends stay as they are. *)
Lemma step_after_return l w w' :
  pc (output w) = OutReturned → step ro params l w = Some w' →
  output w' = output w ∧ fired w' = fired w.
Proof.
  intros Hpc Hstep. unfold step in Hstep.
  destruct (exited w); [done|]. rewrite Hpc in Hstep.
  destruct l as [r| | | |[|]| |]; try done.
  - destruct (main_pc w); try done. case_decide; [|done]. by injection Hstep as <-.
  - destruct (main_pc w); try done. by injection Hstep as <-.
  - destruct (catch_pc w); try done. by injection Hstep as <-.
  - destruct (main_pc w); try done. destruct (done_closed (output w)); [|done].
    by injection Hstep as <-.
  - destruct (catch_pc w); try done. destruct (done_closed (output w)); [|done].
    by injection Hstep as <-.
Qed.

Lemma run_after_return schedule : ∀ w w',
  pc (output w) = OutReturned → run ro params schedule w = Some w' →
  output w' = output w ∧ fired w' = fired w.
Proof.
  induction schedule as [|l schedule IH]; intros w w' Hpc Hrun; simpl in Hrun.
  - by injection Hrun as <-.
  - destruct (step ro params l w) as [w1|] eqn:Hstep; [|done].
    simpl in Hrun.
    destruct (step_after_return _ _ _ Hpc Hstep) as [Ho Hf].
    destruct (IH w1 w') as [Ho' Hf']; [by rewrite Ho|done|].
    split; congruence.
Qed.

(** When [manageOutput] has returned, the total and the tally count the
    results it received; these are all the results sent when the channel was
    empty at that moment. *)
Lemma returned_counts schedule w :
  run ro params schedule (world_init fs0) = Some w →
  Z.of_nat (length (consumed (output w))) < 2 ^ 63 →
  total (vars (output w)) = Z.of_nat (length (consumed (output w)))
  ∧ tally_sum (tags (vars (output w))) = Z.of_nat (length (consumed (output w)))
  ∧ (Results w = [] → consumed (output w) = sent w).
Proof.
  intros Hrun Hlen.
  assert (Hw : coherent w) by (eapply run_coherent; [apply coherent_init|done]).
  rewrite (coh_vars w Hw).
  destruct (consume_counts params (consumed (output w)) Hlen) as (Ht & Hs & _).
  split; [done|]. split; [done|].
  intros Hq. by rewrite (coh_sent w Hw), Hq, app_nil_r.
Qed.
End invariant.

End Shutdown.

(** * Properties of the specification *)

Import Loader Output Shutdown.

(** ** Lines of a text *)

Definition line_feed : ascii := "010"%char.

(** The characters of a text, in order. *)
Fixpoint chars (s : string) : list ascii :=
  match s with
  | EmptyString => []
  | String c s => c :: chars s
  end.

(** A text without line feed and without carriage return. *)
Definition line_break_free (s : string) : Prop :=
  Forall (λ c, c ≠ line_feed ∧ c ≠ carriage_return) (chars s).

(** Lines written one after the other, each ended by a line feed. *)
Definition terminated (lines : list string) : string :=
  concat_strings ((λ line, line +:+ newline) <$> lines).

(** A line the scanner's buffer can hold: no line feed inside, and fewer
    bytes than [bufio.MaxScanTokenSize]. *)
Definition short_line (line : string) : Prop :=
  (line_feed ∉ chars line)
  ∧ (N.of_nat (String.length line) < MaxScanTokenSize)%N.

(** A line without the carriage return that may end it. *)
Fixpoint strip_cr (line : string) : string :=
  match line with
  | EmptyString => EmptyString
  | String c EmptyString =>
      if decide (c = carriage_return) then EmptyString else line
  | String c rest => String c (strip_cr rest)
  end.

Lemma rev_app_rev_app (l a b : string) :
  String.rev_app (String.rev_app l a) b = String.rev_app a (l +:+ b).
Proof.
  revert a b. induction l as [|c l IH]; intros a b; [done|].
  simpl. by rewrite IH.
Qed.

Lemma rev_rev_app (l : string) : String.rev (String.rev_app l EmptyString) = l.
Proof.
  unfold String.rev. rewrite rev_app_rev_app. simpl. apply app_string_nil_r.
Qed.

Lemma rev_app_app (r acc : string) :
  String.rev_app r acc = String.rev r +:+ acc.
Proof.
  unfold String.rev. revert acc. induction r as [|c r IH]; intros acc; [done|].
  simpl. rewrite (IH (String c acc)), (IH (String c EmptyString)).
  by rewrite app_string_assoc.
Qed.

Lemma strip_cr_snoc (s : string) (c : ascii) :
  strip_cr (s +:+ String c EmptyString)
  = if decide (c = carriage_return) then s else s +:+ String c EmptyString.
Proof.
  induction s as [|a s IH]; [done|].
  change (String a s +:+ String c EmptyString)
    with (String a (s +:+ String c EmptyString)).
  destruct s as [|b s].
  - change (strip_cr (String a (String c EmptyString)))
      with (String a (strip_cr (String c EmptyString))).
    simpl. by destruct (decide (c = carriage_return)).
  - change (strip_cr (String a (String b s +:+ String c EmptyString)))
      with (String a (strip_cr (String b s +:+ String c EmptyString))).
    rewrite IH. by destruct (decide (c = carriage_return)).
Qed.

(** What the scanner does to a line it has read is [strip_cr]. *)
Lemma dropCR_strip_cr (rev_line : string) :
  dropCR rev_line = strip_cr (String.rev rev_line).
Proof.
  destruct rev_line as [|c rest]; [done|].
  assert (Hrev : String.rev (String c rest)
                 = String.rev rest +:+ String c EmptyString).
  { unfold String.rev at 1. simpl. apply rev_app_app. }
  unfold dropCR. rewrite Hrev, strip_cr_snoc.
  by destruct (decide (c = carriage_return)).
Qed.

Lemma strip_cr_line_break_free (line : string) :
  line_break_free line → strip_cr line = line.
Proof.
  induction line as [|c line IH]; [done|]. intros Hline.
  apply Forall_cons in Hline as [[_ Hc] Hline].
  destruct line as [|b line].
  - simpl. by rewrite decide_False.
  - change (strip_cr (String c (String b line)))
      with (String c (strip_cr (String b line))).
    by rewrite IH.
Qed.

Lemma line_break_free_line_feed (line : string) :
  line_break_free line → line_feed ∉ chars line.
Proof.
  intros Hline Hin. unfold line_break_free in Hline.
  rewrite Forall_forall in Hline. by destruct (Hline _ Hin).
Qed.

Lemma chars_rev_app (l a : string) (c : ascii) :
  c ∈ chars (String.rev_app l a) ↔ c ∈ chars l ∨ c ∈ chars a.
Proof.
  revert a. induction l as [|c' l IH]; intros a; simpl.
  - split; [by right|]. intros [Hnil|Ha]; [|done].
    by apply not_elem_of_nil in Hnil.
  - rewrite IH. simpl. rewrite !elem_of_cons. tauto.
Qed.

Lemma chars_dropCR (rev_line : string) (c : ascii) :
  c ∈ chars (dropCR rev_line) → c ∈ chars rev_line.
Proof.
  destruct rev_line as [|c0 rest]; [done|]. simpl.
  destruct (decide (c0 = carriage_return)); unfold String.rev;
    rewrite chars_rev_app; simpl; rewrite ?elem_of_cons;
    intros [Hc|Hnil]; try (by apply not_elem_of_nil in Hnil); tauto.
Qed.

(** A line that fits the buffer and is ended by a line feed is one token. *)
Lemma scan_from_line (l acc rest : string) (size : N) :
  line_feed ∉ chars l →
  (size + N.of_nat (String.length l) < MaxScanTokenSize)%N →
  scan_from acc size (l +:+ newline +:+ rest)
  = dropCR (String.rev_app l acc) :: scan_from EmptyString 0 rest.
Proof.
  revert acc size. induction l as [|c l IH]; intros acc size Hl Hsize.
  - change (EmptyString +:+ newline +:+ rest) with (String line_feed rest).
    simpl. reflexivity.
  - change (String c l +:+ newline +:+ rest)
      with (String c (l +:+ newline +:+ rest)).
    simpl in Hl, Hsize. rewrite elem_of_cons in Hl.
    simpl. rewrite decide_False by (intros ->; apply Hl; by left).
    rewrite decide_False by lia.
    apply IH; [tauto|lia].
Qed.

(** A last line without line feed is a token when it is not empty. *)
Lemma scan_from_last (last acc : string) (size : N) :
  line_feed ∉ chars last →
  (size + N.of_nat (String.length last) < MaxScanTokenSize)%N →
  scan_from acc size last
  = match String.rev_app last acc with
    | EmptyString => []
    | rev_line => [dropCR rev_line]
    end.
Proof.
  revert acc size. induction last as [|c last IH]; intros acc size Hl Hsize.
  - simpl. by destruct acc.
  - simpl in Hl, Hsize. rewrite elem_of_cons in Hl.
    simpl. rewrite decide_False by (intros ->; apply Hl; by left).
    rewrite decide_False by lia.
    apply IH; [tauto|lia].
Qed.


Lemma terminated_cons (line : string) (lines : list string) (rest : string) :
  terminated (line :: lines) +:+ rest
  = line +:+ newline +:+ (terminated lines +:+ rest).
Proof. unfold terminated. simpl. by rewrite !app_string_assoc. Qed.

Lemma MaxScanTokenSize_pos : (0 < MaxScanTokenSize)%N.
Proof. done. Qed.

(** The tokens of a text whose lines all fit the buffer. *)
Lemma ScanLines_short_lines (lines : list string) (last : string) :
  Forall short_line lines → short_line last →
  ScanLines (terminated lines +:+ last)
  = strip_cr <$> (lines ++ (if decide (last = EmptyString) then [] else [last])).
Proof.
  intros Hlines [Hlf Hlen]. unfold ScanLines.
  induction Hlines as [|line lines [Hline Hshort] _ IH].
  - change (terminated [] +:+ last) with last.
    rewrite scan_from_last by (try done; lia).
    pose proof (rev_rev_app last) as Hrev.
    destruct (String.rev_app last EmptyString) as [|c r] eqn:Hr.
    + rewrite decide_True; [done|]. by rewrite <- Hrev.
    + rewrite decide_False by (intros ->; done).
      by rewrite dropCR_strip_cr, Hrev.
  - rewrite terminated_cons, scan_from_line by (try done; lia).
    rewrite dropCR_strip_cr, rev_rev_app, IH. done.
Qed.


(** No token holds a line feed, and tokens are made of bytes of the input. *)
Lemma scan_from_no_line_feed (data acc token : string) (size : N) (c : ascii) :
  line_feed ∉ chars acc →
  token ∈ scan_from acc size data → c ∈ chars token →
  c ≠ line_feed ∧ (c ∈ chars acc ∨ c ∈ chars data).
Proof.
  revert acc size.
  induction data as [|d data IH]; intros acc size Hacc Htoken Hc; simpl in *.
  - destruct acc as [|a acc]; [by apply not_elem_of_nil in Htoken|].
    apply list_elem_of_singleton in Htoken as ->.
    apply chars_dropCR in Hc. split; [|by left]. by intros ->.
  - destruct (decide (d = "010"%char)) as [->|Hd].
    + apply elem_of_cons in Htoken as [->|Htoken].
      * apply chars_dropCR in Hc. split; [|by left]. by intros ->.
      * destruct (IH EmptyString 0%N) as [Hlf [Hnil|Hdata]]; try done.
        { apply not_elem_of_nil. }
        { by apply not_elem_of_nil in Hnil. }
        split; [done|]. right. by right.
    + destruct (decide (MaxScanTokenSize ≤ size + 1)%N).
      { by apply not_elem_of_nil in Htoken. }
      destruct (IH (String d acc) (size + 1)%N) as [Hlf Hwhere]; try done.
      { simpl. rewrite elem_of_cons. intros [Heq|Hin]; [by subst d|done]. }
      split; [done|]. simpl in Hwhere. rewrite elem_of_cons in Hwhere.
      destruct Hwhere as [[->|Hin]|Hin]; [right; by left|by left|right; by right].
Qed.

Lemma loaders_words (fs : filesystem) (http_Get : option string) (path : string) :
  (EmptyString ∉ (getFile fs path).1)
  ∧ (EmptyString ∉ (getWordlist fs http_Get path).1).
Proof.
  assert (Hscan : ∀ data, EmptyString ∉ scan_words (ScanLines data) []).
  { intros data Hin. rewrite scan_words_filter in Hin.
    apply list_elem_of_filter in Hin. tauto. }
  assert (Hfile : EmptyString ∉ (getFile fs path).1).
  { unfold getFile.
    destruct (os_Open fs path); simpl; [apply not_elem_of_nil|apply Hscan]. }
  split; [done|].
  unfold getWordlist. destruct (decide (path ≠ EmptyString)); [done|].
  destruct http_Get; simpl; [apply Hscan|apply not_elem_of_nil].
Qed.

(** ** Characters of a text *)

Definition in_range (lo hi : N) (c : ascii) : Prop :=
  (lo ≤ byte_of c ≤ hi)%N.

(** The bytes of one character in UTF-8: the forms of RFC 3629, from one byte
    (ASCII) to four. *)
Inductive utf8_char : string → Prop :=
  | utf8_ascii c :
      in_range 0x00 0x7F c → utf8_char (String c EmptyString)
  | utf8_two c t1 :
      in_range 0xC2 0xDF c → in_range 0x80 0xBF t1 →
      utf8_char (String c (String t1 EmptyString))
  | utf8_three_E0 c t1 t2 :
      in_range 0xE0 0xE0 c → in_range 0xA0 0xBF t1 → in_range 0x80 0xBF t2 →
      utf8_char (String c (String t1 (String t2 EmptyString)))
  | utf8_three c t1 t2 :
      in_range 0xE1 0xEC c ∨ in_range 0xEE 0xEF c →
      in_range 0x80 0xBF t1 → in_range 0x80 0xBF t2 →
      utf8_char (String c (String t1 (String t2 EmptyString)))
  | utf8_three_ED c t1 t2 :
      in_range 0xED 0xED c → in_range 0x80 0x9F t1 → in_range 0x80 0xBF t2 →
      utf8_char (String c (String t1 (String t2 EmptyString)))
  | utf8_four_F0 c t1 t2 t3 :
      in_range 0xF0 0xF0 c → in_range 0x90 0xBF t1 →
      in_range 0x80 0xBF t2 → in_range 0x80 0xBF t3 →
      utf8_char (String c (String t1 (String t2 (String t3 EmptyString))))
  | utf8_four c t1 t2 t3 :
      in_range 0xF1 0xF3 c → in_range 0x80 0xBF t1 →
      in_range 0x80 0xBF t2 → in_range 0x80 0xBF t3 →
      utf8_char (String c (String t1 (String t2 (String t3 EmptyString))))
  | utf8_four_F4 c t1 t2 t3 :
      in_range 0xF4 0xF4 c → in_range 0x80 0x8F t1 →
      in_range 0x80 0xBF t2 → in_range 0x80 0xBF t3 →
      utf8_char (String c (String t1 (String t2 (String t3 EmptyString)))).

(** Decide the byte comparisons of the decoder from the ranges at hand. *)
Ltac decide_bytes :=
  unfold in_range in *;
  repeat match goal with
         | |- context [(?a <? ?b)%N] => destruct (N.ltb_spec a b); try lia
         | |- context [(?a =? ?b)%N] => destruct (N.eqb_spec a b); try lia
         | |- context [(?a <=? ?b)%N] => destruct (N.leb_spec a b); try lia
         end.

Lemma string_app_cons (c : ascii) (s r : string) :
  String c s +:+ r = String c (s +:+ r).
Proof. reflexivity. Qed.

Lemma string_app_nil_l (r : string) : EmptyString +:+ r = r.
Proof. reflexivity. Qed.

(** The decoder consumes a well-formed character whole, whatever follows. *)
Lemma rune_size_utf8_char (c : ascii) (tail rest : string) :
  utf8_char (String c tail) →
  rune_size c (tail +:+ rest) = S (String.length tail).
Proof.
  intros Hletter.
  inversion Hletter as [c0 H|c0 t1 H H1|c0 t1 t2 H H1 H2|c0 t1 t2 H H1 H2
                       |c0 t1 t2 H H1 H2|c0 t1 t2 t3 H H1 H2 H3
                       |c0 t1 t2 t3 H H1 H2 H3|c0 t1 t2 t3 H H1 H2 H3];
    subst; rewrite ?string_app_cons, ?string_app_nil_l;
    unfold rune_size, first, continuation;
    try destruct H as [H|H]; decide_bytes; reflexivity.
Qed.

Lemma rune_count_from_skip (tail rest : string) :
  rune_count_from (String.length tail) (tail +:+ rest) = rune_count_from 0 rest.
Proof.
  induction tail as [|t tail IH]; [done|].
  rewrite string_app_cons. simpl. apply IH.
Qed.

(** So it counts a well-formed character as one rune. *)
Lemma rune_count_utf8_char (letter rest : string) :
  utf8_char letter →
  rune_count_from 0 (letter +:+ rest) = S (rune_count_from 0 rest).
Proof.
  intros Hletter. destruct letter as [|c tail]; [inversion Hletter|].
  rewrite string_app_cons. cbn [rune_count_from].
  rewrite rune_size_utf8_char by done.
  replace (S (String.length tail) - 1)%nat with (String.length tail) by lia.
  by rewrite rune_count_from_skip.
Qed.

Lemma rune_count_letters (letters : list string) (rest : string) :
  Forall utf8_char letters →
  rune_count_from 0 (concat_strings letters +:+ rest)
  = (length letters + rune_count_from 0 rest)%nat.
Proof.
  induction 1 as [|letter letters Hletter _ IH]; [done|].
  simpl. rewrite app_string_assoc, rune_count_utf8_char by done.
  by rewrite IH.
Qed.
(** ** Inputs used to exercise the program *)

Definition request (name address source tag : string) (asn : Z)
    (isp netblock : string) : amass.AmassRequest :=
  {| amass.Name := name; amass.Address := address; amass.Netblock := netblock;
     amass.ASN := asn; amass.ISP := isp; amass.Tag := tag;
     amass.Source := source |}.

Definition www_request : amass.AmassRequest :=
  request "www.example.com" "192.0.2.10" "Forward DNS" "dns"
    64500 "Example Networks" "192.0.2.0/24".

Definition mail_request : amass.AmassRequest :=
  request "mail.example.com" "192.0.2.25" "Google" "search"
    64500 "Renamed Networks" "192.0.2.0/24".

Definition vpn_request : amass.AmassRequest :=
  request "vpn.example.com" "198.51.100.7" "Bing" "search"
    64511 "Other Carrier" "198.51.100.0/24".

Definition quiet : outputParams :=
  {| Verbose := false; Sources := false; PrintIPs := false;
     FileOut := EmptyString |}.

Definition to_file : outputParams :=
  {| Verbose := false; Sources := true; PrintIPs := true;
     FileOut := "results.txt" |}.

Definition empty_disk : filesystem := {| files := ∅; denied := ∅ |}.

Definition stale_disk : filesystem :=
  {| files := {[ "results.txt"%string := "old content"%string ]}; denied := ∅ |}.

Definition locked_disk : filesystem :=
  {| files := ∅; denied := {[ "results.txt"%string ]} |}.

(** The world a schedule leads to, or the initial one when the schedule
    cannot be followed. *)
Definition world_after (params : outputParams) (fs : filesystem)
    (schedule : list label) : world :=
  default (world_init fs) (run key_order params schedule (world_init fs)).

(** The engine sends one request and returns; [select] then takes the finish
    case although the request is still in the channel. *)
Definition finish_overtakes : list label :=
  [EngineEmit www_request; EngineReturn; SelectFinish EngineComplete; MainDone].

(** One request is received, the engine returns and [main] fires finish. *)
Definition engine_completes : list label :=
  [EngineEmit www_request; SelectResult; EngineReturn;
   SelectFinish EngineComplete].

Definition two_results_then_finish : list label :=
  [EngineEmit www_request; EngineEmit mail_request; SelectResult; SelectResult;
   EngineReturn; SelectFinish EngineComplete; MainDone].

(** ** Rate translator *)

(** C4: a positive frequency below 60 per minute gives a delay of
    [60 / freq] seconds in integer arithmetic; 30 gives 2 seconds, 120 gives
    500 milliseconds and 0 gives the engine's default delay. *)
Theorem freqToDuration_documented_values (DefaultFrequency freq : Z) :
  0 < freq < 60 →
  Rate.freqToDuration DefaultFrequency freq = Some (60 `quot` freq * Rate.Second)
  ∧ Rate.freqToDuration DefaultFrequency 30 = Some (2 * Rate.Second)
  ∧ Rate.freqToDuration DefaultFrequency 120 = Some (500 * Rate.Millisecond)
  ∧ Rate.freqToDuration DefaultFrequency 0 = Some DefaultFrequency.
Proof.
  intros Hfreq. split; [by apply Rate.freqToDuration_seconds|].
  split; [|split].
  - by rewrite Rate.freqToDuration_seconds.
  - by rewrite Rate.freqToDuration_per_second.
  - done.
Qed.

Lemma freqToDuration_documented_values_witness :
  0 < 7 < 60
  ∧ Rate.freqToDuration 5000000 7 = Some (8 * Rate.Second).
Proof.
  split; [lia|].
  apply (freqToDuration_documented_values 5000000 7). lia.
Defined.

(** C9: [freqToDuration] returns a duration for every [int64] frequency (no
    division by zero is reached), and returns the engine's default for every
    frequency that is not positive and for every frequency of 30060 or more,
    where the per-second rate [freq / 60] is at least 501 and the spacing
    [1000 / (freq / 60)] is at most 1.  Between 60 and 30059 the result is the
    millisecond spacing, which is at least 2. *)
Theorem freqToDuration_total_default_ranges (DefaultFrequency freq : Z) :
  in_int64 freq →
  (∃ d, Rate.freqToDuration DefaultFrequency freq = Some d)
  ∧ (freq ≤ 0 ∨ 30060 ≤ freq →
     Rate.freqToDuration DefaultFrequency freq = Some DefaultFrequency)
  ∧ (30060 ≤ freq →
     501 ≤ freq `quot` 60 ∧ 1000 `quot` (freq `quot` 60) ≤ 1)
  ∧ (60 ≤ freq < 30060 →
     Rate.freqToDuration DefaultFrequency freq
     = Some (1000 `quot` (freq `quot` 60) * Rate.Millisecond)
     ∧ 2 ≤ 1000 `quot` (freq `quot` 60)).
Proof.
  intros [Hlo Hhi].
  assert (Hdefault : freq ≤ 0 ∨ 30060 ≤ freq →
    Rate.freqToDuration DefaultFrequency freq = Some DefaultFrequency).
  { intros [Hneg|Hbig].
    - unfold Rate.freqToDuration. by rewrite decide_False by lia.
    - rewrite Rate.freqToDuration_per_second by lia.
      destruct (Rate.per_second_rate_high freq Hbig) as [_ Hm].
      by rewrite decide_False by lia. }
  assert (Hmillis : 60 ≤ freq < 30060 →
    Rate.freqToDuration DefaultFrequency freq
    = Some (1000 `quot` (freq `quot` 60) * Rate.Millisecond)
    ∧ 2 ≤ 1000 `quot` (freq `quot` 60)).
  { intros Hmid. destruct (Rate.per_second_rate_low freq Hmid) as [Hd Hm].
    rewrite Rate.freqToDuration_per_second by lia.
    by rewrite decide_True by lia. }
  split; [|split; [done|split; [apply Rate.per_second_rate_high|done]]].
  destruct (decide (freq ≤ 0 ∨ 30060 ≤ freq)) as [Hout|Hin].
  - eexists. by apply Hdefault.
  - destruct (decide (freq < 60)).
    + eexists. apply Rate.freqToDuration_seconds. lia.
    + eexists. apply Hmillis. lia.
Qed.

Lemma freqToDuration_total_default_ranges_witness :
  in_int64 30060 ∧ Rate.freqToDuration 5000000 30060 = Some 5000000.
Proof.
  assert (Hin : in_int64 30060) by (unfold in_int64; lia).
  split; [done|].
  apply (freqToDuration_total_default_ranges 5000000 30060 Hin). lia.
Defined.

(** ** Loaders *)

(** A line fits the scanner's buffer. *)
Definition fits_buffer (line : string) : Prop :=
  (N.of_nat (String.length line) < MaxScanTokenSize)%N.











(** Decide a closed statement by evaluation. *)
Ltac decide_closed := apply (bool_decide_unpack _); vm_compute; exact I.











(** ** Output lines *)

Lemma length_app_string (s1 s2 : string) :
  String.length (s1 +:+ s2) = (String.length s1 + String.length s2)%nat.
Proof.
  induction s1 as [|c s1 IH]; [done|].
  rewrite string_app_cons. simpl. by rewrite IH.
Qed.

Lemma utf8_char_ascii (c : ascii) :
  in_range 0x00 0x7F c → utf8_char (String c EmptyString).
Proof. apply utf8_ascii. Qed.

Definition ct_request : amass.AmassRequest :=
  request "www.example.com" "192.0.2.10" "Certificate Transparency" "cert"
    64500 "Example Networks" "192.0.2.0/24".

Definition with_sources : outputParams :=
  {| Verbose := false; Sources := true; PrintIPs := false;
     FileOut := EmptyString |}.

(** C8 (counterexample): for the source [Certificate Transparency] the
    prefix has 27 characters, so the line is not a field of 14 characters
    followed by the hostname and a line feed. *)
Lemma formatLine_prefix_wider_than_14 :
  formatLine with_sources ct_request
  = "[Certificate Transparency] www.example.com" +:+ newline
  ∧ String.length "[Certificate Transparency] " = 27%nat
  ∧ ¬ (∃ field, String.length field = 14%nat
                ∧ formatLine with_sources ct_request
                  = field +:+ amass.Name ct_request +:+ newline).
Proof.
  assert (Hline : formatLine with_sources ct_request
                  = "[Certificate Transparency] www.example.com" +:+ newline)
    by (vm_compute; reflexivity).
  split; [done|]. split; [done|].
  intros (field & Hlen & Heq). rewrite Hline in Heq.
  apply (f_equal String.length) in Heq.
  rewrite !length_app_string, Hlen in Heq. simpl in Heq. lia.
Qed.

(** C8: the line of a result is, when sources are shown, the text
    [[source] ] followed by as many blanks as it lacks to 14 characters
    (none when it has 14 or more: it is never cut), then [hostname,address]
    when addresses are shown and [hostname] otherwise, then a line feed.
    Characters are counted as [fmt] counts them, in UTF-8 runes: for a source
    of [n] well-formed UTF-8 characters the blanks are [11 - n], and the
    prefix has 14 characters when [n] is at most 11 and [n + 3] otherwise. *)
Theorem formatLine_padded_layout (params : outputParams)
    (result : amass.AmassRequest) :
  let bracketed := ("[" +:+ amass.Source result +:+ "] ")%string in
  let body :=
    if PrintIPs params
    then amass.Name result +:+ "," +:+ amass.Address result
    else amass.Name result in
  formatLine params result
  = (if Sources params
     then bracketed +:+ spaces (14 - RuneCountInString bracketed)
     else EmptyString) +:+ body +:+ newline
  ∧ ∀ letters : list string,
      Forall utf8_char letters →
      amass.Source result = concat_strings letters →
      let n := length letters in
      formatLine params result
      = (if Sources params then bracketed +:+ spaces (11 - n)
         else EmptyString) +:+ body +:+ newline
      ∧ ∃ cells : list string,
          Forall utf8_char cells
          ∧ bracketed +:+ spaces (11 - n) = concat_strings cells
          ∧ length cells = (14 `max` (n + 3))%nat.
Proof.
  intros bracketed body.
  assert (Hline : formatLine params result
    = (if Sources params
       then bracketed +:+ spaces (14 - RuneCountInString bracketed)
       else EmptyString) +:+ body +:+ newline).
  { unfold formatLine, fmt_s_left. fold bracketed. subst body.
    destruct (Sources params), (PrintIPs params); simpl;
      rewrite ?app_string_assoc; done. }
  split; [done|]. intros letters Hletters Hsource n.
  assert (Hopen : utf8_char "[") by (apply utf8_ascii; unfold in_range; simpl; lia).
  assert (Hclose : utf8_char "]") by (apply utf8_ascii; unfold in_range; simpl; lia).
  assert (Hblank : utf8_char " ") by (apply utf8_ascii; unfold in_range; simpl; lia).
  set (cells := [("[" : string)] ++ letters ++ [("]" : string); (" " : string)]).
  assert (Hcells : bracketed = concat_strings cells).
  { subst bracketed cells. rewrite Hsource. simpl. f_equal.
    clear. induction letters as [|letter letters IH]; [done|].
    simpl. by rewrite app_string_assoc, IH. }
  assert (Hwell : Forall utf8_char cells).
  { subst cells. apply Forall_app. split; [by repeat constructor|].
    apply Forall_app. split; [done|]. by repeat constructor. }
  assert (Hcount : length cells = (n + 3)%nat).
  { subst cells n. rewrite !length_app. simpl. lia. }
  assert (Hrunes : RuneCountInString bracketed = (n + 3)%nat).
  { unfold RuneCountInString.
    rewrite <- (app_string_nil_r bracketed), Hcells.
    rewrite rune_count_letters by done. rewrite Hcount. simpl. lia. }
  split.
  - rewrite Hline, Hrunes. by replace (14 - (n + 3))%nat with (11 - n)%nat by lia.
  - exists (cells ++ replicate (11 - n) (" " : string)).
    split; [|split].
    + apply Forall_app. split; [done|]. by apply Forall_replicate.
    + rewrite Hcells. clear. generalize (11 - n)%nat as k. intros k.
      induction cells as [|cell cells IH]; simpl.
      * induction k as [|k IHk]; [done|]. simpl. by rewrite <- IHk.
      * by rewrite app_string_assoc, IH.
    + rewrite length_app, length_replicate, Hcount. lia.
Qed.

Lemma formatLine_padded_layout_witness :
  formatLine with_sources mail_request
  = "[Google]      mail.example.com" +:+ newline.
Proof.
  destruct (formatLine_padded_layout with_sources mail_request) as [_ Hpad].
  destruct (Hpad ["G"; "o"; "o"; "g"; "l"; "e"]) as [-> _].
  - repeat constructor; unfold in_range; simpl; lia.
  - reflexivity.
  - vm_compute. reflexivity.
Defined.

(** ** ASN registry *)

(** C5: the ISP name registered for an ASN is the one of the first result
    that carries this ASN, whatever names later results carry for it. *)
Theorem isp_name_first_seen_wins (params : outputParams)
    (earlier later : list amass.AmassRequest) (first_seen : amass.AmassRequest) :
  (∀ r, r ∈ earlier → amass.ASN r ≠ amass.ASN first_seen) →
  Name <$> (asns (consume params (earlier ++ first_seen :: later) locals_init)
              !! amass.ASN first_seen)
  = Some (amass.ISP first_seen).
Proof.
  intros Hearlier. unfold consume. rewrite foldl_app. simpl.
  apply consume_asn_known. rewrite on_result_fields. simpl.
  apply updateData_asn_new. by apply consume_asn_absent.
Qed.

Lemma isp_name_first_seen_wins_witness :
  Name <$> (asns (consume quiet ([vpn_request] ++ www_request :: [mail_request])
                     locals_init) !! 64500)
  = Some "Example Networks"%string.
Proof.
  apply (isp_name_first_seen_wins quiet [vpn_request] [mail_request] www_request).
  intros r Hr. apply list_elem_of_singleton in Hr as ->. vm_compute. discriminate.
Defined.

(** ** Summary *)

(** C7: with two sources in the tally the printed list ends with a
    separator: [printSummary] writes [", "] after the last entry as well,
    because [num] stays 1 while [length] is 2. *)
Theorem printSummary_separator_after_last :
  printSummary key_order 3 {[ "A"%string := 2; "B"%string := 1 ]} ∅
  = (newline +:+ "3 names discovered - A: 2, B: 1, " +:+ newline
     +:+ "--------------------------------------------------------------------------------"
     +:+ newline)%string.
Proof. vm_compute. reflexivity. Qed.

(** ** Aggregation and shutdown *)

(** C1: a request still in the channel when [select] takes the finish case is
    not processed.  The engine sends one request and returns, [main] sends
    finish and [select] takes it: the program ends with one request sent,
    that request still queued, a total of 0, an empty tally and nothing
    printed. *)
Theorem queued_result_lost_at_finish :
  let w := world_after quiet empty_disk finish_overtakes in
  run key_order quiet finish_overtakes (world_init empty_disk) = Some w
  ∧ sent w = [www_request]
  ∧ Results w = [www_request]
  ∧ exited w = true
  ∧ total (vars (output w)) = 0
  ∧ tally_sum (tags (vars (output w))) = 0
  ∧ allLines (vars (output w)) = EmptyString
  ∧ stdout (output w) = EmptyString.
Proof. vm_compute. repeat split. Qed.

(** C2: in every run at most one send on [finish] completes and
    [ioutil.WriteFile] is called at most once; once [done] is closed, whatever
    happens next (the other trigger arriving, its sender waiting at the send)
    leaves the aggregator, its statistics, its output and the file system as
    they are, and no further send on [finish] completes. *)
Theorem finish_fires_at_most_once (ro : rangeOrder) (params : outputParams)
    (fs0 : filesystem) (schedule later : list label) (w w' : world) :
  run ro params schedule (world_init fs0) = Some w →
  run ro params later w = Some w' →
  (length (fired w') ≤ 1)%nat
  ∧ (length (writes (output w')) ≤ 1)%nat
  ∧ (done_closed (output w) = true →
     output w' = output w ∧ fired w' = fired w
     ∧ ∀ by_, step ro params (SelectFinish by_) w' = None).
Proof.
  intros Hrun Hlater.
  assert (Hw : coherent ro params fs0 w).
  { eapply run_coherent; [apply coherent_init|done]. }
  assert (Hw' : coherent ro params fs0 w') by by eapply run_coherent.
  assert (Hbound : (length (fired w') ≤ 1)%nat
                   ∧ (length (writes (output w')) ≤ 1)%nat).
  { destruct (pc (output w')) eqn:Hpc.
    - destruct (coh_select _ _ _ _ Hw' Hpc) as (-> & _ & -> & _). simpl. lia.
    - destruct (coh_returned _ _ _ _ Hw' Hpc) as (-> & _ & Hflush & _).
      unfold flushed in Hflush. case_decide; injection Hflush as -> _; simpl; lia. }
  destruct Hbound as [Hfired Hwrites]. split; [done|]. split; [done|].
  intros Hdone. pose proof (coherent_done _ _ _ _ Hw Hdone) as Hpc.
  destruct (run_after_return _ _ _ _ _ Hpc Hlater) as [Hout Hf].
  split; [done|]. split; [done|].
  intros by_. unfold step. destruct (exited w'); [done|].
  rewrite Hout, Hpc. by destruct by_.
Qed.

Lemma finish_fires_at_most_once_witness :
  let w := world_after to_file stale_disk engine_completes in
  let w' := world_after to_file stale_disk (engine_completes ++ [SignalArrive]) in
  (length (fired w') ≤ 1)%nat
  ∧ (length (writes (output w')) ≤ 1)%nat
  ∧ (done_closed (output w) = true →
     output w' = output w ∧ fired w' = fired w
     ∧ ∀ by_, step key_order to_file (SelectFinish by_) w' = None).
Proof.
  apply (finish_fires_at_most_once key_order to_file stale_disk
           engine_completes [SignalArrive]); vm_compute; reflexivity.
Defined.

(** C3: with an output path configured, nothing is written while results are
    being received; when [manageOutput] has returned, [ioutil.WriteFile] has
    been called exactly once, with the configured path and the lines of all
    results received, in the order of arrival; if the path can be written the
    file then holds exactly this text, whatever it held before. *)
Theorem output_file_is_all_lines (ro : rangeOrder) (params : outputParams)
    (fs0 : filesystem) (schedule : list label) (w : world) :
  FileOut params ≠ EmptyString →
  run ro params schedule (world_init fs0) = Some w →
  let content := lines_of params (consumed (output w)) in
  sent w = consumed (output w) ++ Results w
  ∧ match pc (output w) with
    | OutSelect => writes (output w) = [] ∧ fsys (output w) = fs0
    | OutReturned =>
        writes (output w) = [(FileOut params, content)]
        ∧ (FileOut params ∉ denied fs0 →
           files (fsys (output w)) = <[FileOut params := content]> (files fs0)
           ∧ files (fsys (output w)) !! FileOut params = Some content)
    end.
Proof.
  intros Hpath Hrun content.
  assert (Hw : coherent ro params fs0 w).
  { eapply run_coherent; [apply coherent_init|done]. }
  split; [apply (coh_sent _ _ _ _ Hw)|].
  destruct (pc (output w)) eqn:Hpc.
  - by destruct (coh_select _ _ _ _ Hw Hpc) as (_ & _ & -> & -> & _).
  - destruct (coh_returned _ _ _ _ Hw Hpc) as (_ & _ & Hflush & _).
    assert (Hlines : allLines (vars (output w)) = content).
    { rewrite (coh_vars _ _ _ _ Hw), consume_allLines. done. }
    unfold flushed in Hflush. rewrite decide_True in Hflush by done.
    injection Hflush as -> ->. rewrite Hlines. split; [done|].
    intros Hfree. unfold ioutil_WriteFile. rewrite decide_False by done. simpl.
    split; [done|]. apply lookup_insert_eq.
Qed.

Lemma output_file_is_all_lines_witness :
  let w := world_after to_file stale_disk two_results_then_finish in
  let content := lines_of to_file [www_request; mail_request] in
  FileOut to_file ≠ EmptyString
  ∧ pc (output w) = OutReturned
  ∧ writes (output w) = [(FileOut to_file, content)]
  ∧ files (fsys (output w)) !! FileOut to_file = Some content.
Proof.
  assert (Hpath : FileOut to_file ≠ EmptyString) by done.
  assert (Hrun : run key_order to_file two_results_then_finish
                   (world_init stale_disk)
                 = Some (world_after to_file stale_disk two_results_then_finish))
    by (vm_compute; reflexivity).
  pose proof (output_file_is_all_lines key_order to_file stale_disk
                two_results_then_finish _ Hpath Hrun) as [_ Hfile].
  split; [done|]. split; [vm_compute; reflexivity|].
  change (pc (output (world_after to_file stale_disk two_results_then_finish)))
    with OutReturned in Hfile.
  destruct Hfile as [Hwrites Hcontent]. split; [exact Hwrites|].
  apply Hcontent. vm_compute. set_solver.
Defined.

(** C6: when the output file cannot be written the run still completes
    ([done] is closed and the process exits), but the failure is not
    reported: [ioutil.WriteFile] is called once, no file appears, and
    standard output holds the lines of the results and nothing else. *)
Theorem write_failure_is_silent :
  let w := world_after to_file locked_disk two_results_then_finish in
  run key_order to_file two_results_then_finish (world_init locked_disk) = Some w
  ∧ (ioutil_WriteFile locked_disk (FileOut to_file)
       (allLines (vars (output w)))).2
    = Some "open results.txt: permission denied"%string
  ∧ writes (output w)
    = [(FileOut to_file, lines_of to_file [www_request; mail_request])]
  ∧ fsys (output w) = locked_disk
  ∧ done_closed (output w) = true
  ∧ exited w = true
  ∧ stdout (output w) = lines_of to_file [www_request; mail_request]
  ∧ stdout (output w)
    = stdout (output (world_after to_file empty_disk two_results_then_finish)).
Proof. vm_compute. repeat split. Qed.

(** * Further properties of the code *)

(** ** Rate translator *)

(** The delay for a frequency between 1 and 30059, in nanoseconds. *)
Definition spacing (freq : Z) : Z :=
  if decide (freq < 60) then 60 `quot` freq * Rate.Second
  else 1000 `quot` (freq `quot` 60) * Rate.Millisecond.

Lemma freqToDuration_spacing (DefaultFrequency freq : Z) :
  0 < freq < 30060 →
  Rate.freqToDuration DefaultFrequency freq = Some (spacing freq).
Proof.
  intros Hfreq. unfold spacing. destruct (decide (freq < 60)).
  - apply Rate.freqToDuration_seconds. lia.
  - destruct (Rate.per_second_rate_low freq) as [Hd Hm]; [lia|].
    rewrite Rate.freqToDuration_per_second by lia.
    by rewrite decide_True by lia.
Qed.

Lemma spacing_bounds freq :
  0 < freq < 30060 → 2 * Rate.Millisecond ≤ spacing freq ≤ 60 * Rate.Second.
Proof.
  intros Hfreq. unfold spacing, Rate.Millisecond, Rate.Second.
  destruct (decide (freq < 60)).
  - rewrite Z.quot_div_nonneg by lia.
    assert (1 ≤ 60 `div` freq) by (apply Z.div_le_lower_bound; lia).
    assert (60 `div` freq ≤ 60) by (apply Z.div_le_upper_bound; lia).
    lia.
  - destruct (Rate.per_second_rate_low freq) as [Hd Hm]; [lia|].
    assert (1000 `quot` (freq `quot` 60) ≤ 1000).
    { rewrite (Z.quot_div_nonneg 1000) by lia. apply Z.div_le_upper_bound; lia. }
    lia.
Qed.

(** X1: between 1 and 30059 queries per minute a higher frequency never gives
    a longer delay. *)
Theorem freqToDuration_antitone (DefaultFrequency freq1 freq2 d1 d2 : Z) :
  0 < freq1 → freq1 ≤ freq2 → freq2 < 30060 →
  Rate.freqToDuration DefaultFrequency freq1 = Some d1 →
  Rate.freqToDuration DefaultFrequency freq2 = Some d2 →
  d2 ≤ d1.
Proof.
  intros Hpos Hle Hhi H1 H2.
  rewrite freqToDuration_spacing in H1, H2 by lia.
  injection H1 as <-. injection H2 as <-.
  unfold spacing, Rate.Millisecond, Rate.Second.
  destruct (decide (freq1 < 60)), (decide (freq2 < 60)); try lia.
  - rewrite !Z.quot_div_nonneg by lia.
    assert (60 `div` freq2 ≤ 60 `div` freq1)
      by (apply Z.div_le_compat_l; lia).
    lia.
  - rewrite (Z.quot_div_nonneg 60) by lia.
    assert (1 ≤ 60 `div` freq1) by (apply Z.div_le_lower_bound; lia).
    destruct (Rate.per_second_rate_low freq2) as [Hd Hm]; [lia|].
    assert (1000 `quot` (freq2 `quot` 60) ≤ 1000).
    { rewrite (Z.quot_div_nonneg 1000) by lia. apply Z.div_le_upper_bound; lia. }
    lia.
  - destruct (Rate.per_second_rate_low freq1) as [Hd1 Hm1]; [lia|].
    destruct (Rate.per_second_rate_low freq2) as [Hd2 Hm2]; [lia|].
    assert (freq1 `quot` 60 ≤ freq2 `quot` 60).
    { rewrite !(Z.quot_div_nonneg _ 60) by lia. apply Z.div_le_mono; lia. }
    rewrite !(Z.quot_div_nonneg 1000) by lia.
    assert (1000 `div` (freq2 `quot` 60) ≤ 1000 `div` (freq1 `quot` 60))
      by (apply Z.div_le_compat_l; lia).
    lia.
Qed.

Lemma freqToDuration_antitone_witness :
  Rate.freqToDuration 5000000 30 = Some (2 * Rate.Second)
  ∧ Rate.freqToDuration 5000000 120 = Some (500 * Rate.Millisecond)
  ∧ 500 * Rate.Millisecond ≤ 2 * Rate.Second.
Proof.
  split; [done|]. split; [done|].
  apply (freqToDuration_antitone 5000000 30 120); [lia|lia|lia|done|done].
Defined.

Lemma freqToDuration_value (DefaultFrequency freq : Z) :
  in_int64 freq →
  ∃ d, Rate.freqToDuration DefaultFrequency freq = Some d
       ∧ (d = DefaultFrequency
          ∨ 2 * Rate.Millisecond ≤ d ≤ 60 * Rate.Second).
Proof.
  intros [Hlo Hhi]. destruct (decide (0 < freq < 30060)) as [Hin|Hout].
  - exists (spacing freq). split; [by apply freqToDuration_spacing|].
    right. by apply spacing_bounds.
  - exists DefaultFrequency. split; [|by left].
    destruct (decide (0 < freq)).
    + rewrite Rate.freqToDuration_per_second by lia.
      destruct (Rate.per_second_rate_high freq) as [_ Hm]; [lia|].
      by rewrite decide_False by lia.
    + unfold Rate.freqToDuration. by rewrite decide_False by lia.
Qed.

(** X2: every delay the translator computes itself (frequencies 1 to 30059)
    lies between 2 milliseconds and 60 seconds; any other [int64] frequency
    gives the engine's default. *)
Theorem freqToDuration_range (DefaultFrequency freq d : Z) :
  in_int64 freq →
  Rate.freqToDuration DefaultFrequency freq = Some d →
  (0 < freq < 30060 → 2 * Rate.Millisecond ≤ d ≤ 60 * Rate.Second)
  ∧ (¬ 0 < freq < 30060 → d = DefaultFrequency).
Proof.
  intros Hfreq Hd. split.
  - intros Hin. rewrite freqToDuration_spacing in Hd by done.
    injection Hd as <-. by apply spacing_bounds.
  - intros Hout. destruct Hfreq as [Hlo Hhi].
    destruct (decide (0 < freq)).
    + rewrite Rate.freqToDuration_per_second in Hd by lia.
      destruct (Rate.per_second_rate_high freq) as [_ Hm]; [lia|].
      rewrite decide_False in Hd by lia. by injection Hd as <-.
    + unfold Rate.freqToDuration in Hd. rewrite decide_False in Hd by lia.
      by injection Hd as <-.
Qed.

Lemma freqToDuration_range_witness :
  (0 < 59 < 30060 → 2 * Rate.Millisecond ≤ 1 * Rate.Second ≤ 60 * Rate.Second)
  ∧ (¬ 0 < 59 < 30060 → 1 * Rate.Second = 5000000).
Proof.
  apply (freqToDuration_range 5000000 59 (1 * Rate.Second)); [|done].
  unfold in_int64. lia.
Defined.

(** ** Tally and registry *)

(** A count as a Go map holds it: no entry for what was never counted. *)
Definition counted (n : nat) : option Z :=
  match n with
  | O => None
  | S _ => Some (Z.of_nat n)
  end.
Arguments counted : simpl never.

Definition tag_count (tag : string) (results : list amass.AmassRequest) : nat :=
  length (filter (λ r, amass.Tag r = tag) results).

Definition netblock_count (asn : Z) (netblock : string)
    (results : list amass.AmassRequest) : nat :=
  length (filter (λ r, amass.ASN r = asn ∧ amass.Netblock r = netblock) results).

(** The count the registry holds for a netblock of an ASN. *)
Definition registered (asns : gmap Z asnData) (asn : Z) (netblock : string)
  : option Z :=
  data ← asns !! asn; Netblocks data !! netblock.

Lemma filter_length_le {A} (P : A → Prop) `{∀ x, Decision (P x)} (l : list A) :
  (length (filter P l) ≤ length l)%nat.
Proof. apply length_filter. Qed.

Lemma incr_lookup `{Countable K} (m : gmap K Z) (k k' : K) :
  incr m k !! k'
  = if decide (k = k') then Some (int64_add (default 0 (m !! k)) 1) else m !! k'.
Proof.
  unfold incr. destruct (decide (k = k')) as [->|Hne].
  - by rewrite lookup_insert_eq.
  - by rewrite lookup_insert_ne.
Qed.

(** One more occurrence, as long as the count fits the machine integer. *)
Lemma counted_incr (n : nat) :
  Z.of_nat n < 2 ^ 63 - 1 →
  Some (int64_add (default 0 (counted n)) 1) = counted (S n).
Proof.
  intros Hn. unfold int64_add.
  destruct n as [|n]; unfold counted; simpl default;
    rewrite int64_wrap_id by (unfold in_int64; lia); f_equal; lia.
Qed.

Lemma updateData_asns_lookup req tags asns asn :
  (updateData req tags asns).2 !! asn
  = if decide (amass.ASN req = asn) then
      Some {| Name := from_option Name (amass.ISP req) (asns !! asn);
              Netblocks := incr (from_option Netblocks ∅ (asns !! asn))
                             (amass.Netblock req) |}
    else asns !! asn.
Proof.
  unfold updateData. destruct (decide (amass.ASN req = asn)) as [<-|Hne].
  - destruct (asns !! amass.ASN req); simpl; by rewrite lookup_insert_eq.
  - destruct (asns !! amass.ASN req); simpl;
      rewrite ?lookup_insert_ne by done; done.
Qed.

Lemma registered_updateData req tags asns asn netblock n :
  registered asns asn netblock = counted n → Z.of_nat n < 2 ^ 63 - 1 →
  registered (updateData req tags asns).2 asn netblock
  = if decide (amass.ASN req = asn ∧ amass.Netblock req = netblock)
    then counted (S n) else counted n.
Proof.
  intros Hold Hn. unfold registered in *. rewrite updateData_asns_lookup.
  destruct (decide (amass.ASN req = asn)) as [Hasn|Hasn]; simpl.
  - rewrite incr_lookup.
    destruct (decide (amass.Netblock req = netblock)) as [Hnb|Hnb].
    + rewrite decide_True by done. rewrite <- counted_incr by done.
      do 3 f_equal. subst netblock.
      destruct (asns !! asn); simpl in *; [by rewrite Hold|].
      by rewrite lookup_empty, <- Hold.
    + rewrite decide_False by tauto.
      destruct (asns !! asn); simpl in *; [done|].
      by rewrite lookup_empty.
  - by rewrite decide_False by tauto.
Qed.

(** X3: after any sequence of results the tally holds, for every tag, the
    number of results received with that tag, and no entry for a tag that was
    never seen. *)
Theorem tally_counts_per_tag (params : outputParams)
    (results : list amass.AmassRequest) (tag : string) :
  Z.of_nat (length results) < 2 ^ 63 →
  tags (consume params results locals_init) !! tag
  = counted (tag_count tag results).
Proof.
  induction results as [|result results IH] using rev_ind; intros Hlen.
  - done.
  - rewrite length_app in Hlen. simpl in Hlen.
    rewrite consume_snoc, on_result_fields. simpl.
    rewrite updateData_tags, incr_lookup, IH by lia.
    unfold tag_count. rewrite filter_app, length_app, filter_cons, filter_nil.
    pose proof (filter_length_le (λ r, amass.Tag r = tag) results).
    destruct (decide (amass.Tag result = tag)) as [->|Hne]; simpl.
    + rewrite IH, counted_incr by (unfold tag_count; lia).
      unfold tag_count. f_equal. lia.
    + rewrite Nat.add_0_r. done.
Qed.

Lemma tally_counts_per_tag_witness :
  tags (consume quiet [www_request; mail_request; vpn_request] locals_init)
    !! "search"%string = Some 2
  ∧ tags (consume quiet [www_request; mail_request; vpn_request] locals_init)
    !! "brute"%string = None.
Proof.
  split.
  - apply (tally_counts_per_tag quiet [www_request; mail_request; vpn_request]
             "search"). simpl. lia.
  - apply (tally_counts_per_tag quiet [www_request; mail_request; vpn_request]
             "brute"). simpl. lia.
Defined.

(** X4: the registry has an entry for exactly the ASNs that occurred, and the
    count it holds for a netblock of an ASN is the number of results received
    with that ASN and that netblock. *)
Theorem registry_counts_per_netblock (params : outputParams)
    (results : list amass.AmassRequest) (asn : Z) (netblock : string) :
  Z.of_nat (length results) < 2 ^ 63 →
  let registry := asns (consume params results locals_init) in
  registered registry asn netblock
  = counted (netblock_count asn netblock results)
  ∧ (is_Some (registry !! asn) ↔ ∃ r, r ∈ results ∧ amass.ASN r = asn).
Proof.
  intros Hlen registry. subst registry. split.
  - induction results as [|result results IH] using rev_ind; [done|].
    rewrite length_app in Hlen. simpl in Hlen.
    rewrite consume_snoc, on_result_fields. simpl.
    pose proof (filter_length_le
      (λ r, amass.ASN r = asn ∧ amass.Netblock r = netblock) results).
    rewrite (registered_updateData _ _ _ _ _ _ (IH ltac:(lia)))
      by (unfold netblock_count; lia).
    unfold netblock_count.
    rewrite filter_app, length_app, filter_cons, filter_nil.
    destruct (decide _); simpl; [f_equal; lia|].
    by rewrite Nat.add_0_r.
  - clear Hlen. induction results as [|result results IH] using rev_ind.
    + simpl. rewrite lookup_empty. split; [by intros [? ?]|].
      intros (r & Hr & _). by apply not_elem_of_nil in Hr.
    + rewrite consume_snoc, on_result_fields. simpl.
      rewrite updateData_asns_lookup.
      destruct (decide (amass.ASN result = asn)) as [Hasn|Hasn].
      * split; [|by eauto]. intros _. exists result.
        split; [|done]. apply elem_of_app. right. by left.
      * rewrite IH. split; intros (r & Hr & Hrasn); exists r; split; try done.
        -- apply elem_of_app. by left.
        -- apply elem_of_app in Hr as [Hr|Hr]; [done|].
           apply list_elem_of_singleton in Hr as ->. done.
Qed.

Lemma registry_counts_per_netblock_witness :
  let registry :=
    asns (consume quiet [www_request; mail_request; vpn_request] locals_init) in
  registered registry 64500 "192.0.2.0/24" = Some 2
  ∧ (is_Some (registry !! 64500)
     ↔ ∃ r, r ∈ [www_request; mail_request; vpn_request] ∧ amass.ASN r = 64500).
Proof.
  apply (registry_counts_per_netblock quiet
           [www_request; mail_request; vpn_request] 64500 "192.0.2.0/24").
  simpl. lia.
Defined.

(** ** Shutdown protocol *)

(** How the three goroutines stand relative to each other.  While
    [manageOutput] selects, nobody waits for [done] and the process runs.
    After it has returned, exactly the goroutine whose send on [finish]
    completed waits for [done] or has ended the process; the other one is
    still before or at its own send. *)
Definition phases (w : world) : Prop :=
  match pc (output w) with
  | OutSelect =>
      fired w = [] ∧ exited w = false
      ∧ (main_pc w = MainEngine ∨ main_pc w = MainSendFinish)
      ∧ (catch_pc w = CatchWait ∨ catch_pc w = CatchSendFinish)
  | OutReturned =>
      done_closed (output w) = true
      ∧ ((fired w = [EngineComplete]
          ∧ (catch_pc w = CatchWait ∨ catch_pc w = CatchSendFinish)
          ∧ (main_pc w = MainWaitDone ∧ exited w = false
             ∨ main_pc w = MainReturned ∧ exited w = true))
         ∨ (fired w = [Interrupted]
            ∧ (main_pc w = MainEngine ∨ main_pc w = MainSendFinish)
            ∧ (catch_pc w = CatchWaitDone ∧ exited w = false
               ∨ catch_pc w = CatchExited ∧ exited w = true)))
  end.

Lemma phases_init fs : phases (world_init fs).
Proof. unfold phases. simpl. auto. Qed.

Lemma receive_finish_returned ro params a :
  pc (receive_finish ro params a) = OutReturned
  ∧ done_closed (receive_finish ro params a) = true.
Proof. by rewrite receive_finish_fields. Qed.

(** Case analysis on the disjunctions of [phases]. *)
Ltac split_phases :=
  repeat match goal with
         | H : _ ∧ _ |- _ => destruct H
         | H : _ ∨ _ |- _ => destruct H
         end;
  try congruence;
  repeat match goal with
         | H : fired _ = _ |- _ => rewrite H
         end;
  simpl; auto 10.

Lemma step_phases ro params l w w' :
  phases w → step ro params l w = Some w' → phases w'.
Proof.
  unfold phases, step. intros Hw Hstep.
  destruct (exited w) eqn:Hex; [done|].
  destruct l as [r| | | |[|]| |].
  - destruct (main_pc w) eqn:Hm; try done. case_decide; [|done].
    injection Hstep as <-. simpl.
    destruct (pc (output w)); split_phases.
  - destruct (main_pc w) eqn:Hm; try done. injection Hstep as <-. simpl.
    destruct (pc (output w)); split_phases.
  - destruct (catch_pc w) eqn:Hc; try done. injection Hstep as <-. simpl.
    destruct (pc (output w)); split_phases.
  - destruct (pc (output w)) eqn:Hpc; [|done].
    destruct (Results w); [done|]. injection Hstep as <-. simpl.
    rewrite receive_result_fields. simpl. split_phases.
  - destruct (pc (output w)) eqn:Hpc; [|done].
    destruct (main_pc w) eqn:Hm; try done. injection Hstep as <-. simpl.
    destruct (receive_finish_returned ro params (output w)) as [-> ->].
    split_phases.
  - destruct (pc (output w)) eqn:Hpc; [|done].
    destruct (catch_pc w) eqn:Hc; try done. injection Hstep as <-. simpl.
    destruct (receive_finish_returned ro params (output w)) as [-> ->].
    split_phases.
  - destruct (main_pc w) eqn:Hm; try done.
    destruct (done_closed (output w)) eqn:Hd; [|done].
    injection Hstep as <-. simpl.
    destruct (pc (output w)); split_phases.
  - destruct (catch_pc w) eqn:Hc; try done.
    destruct (done_closed (output w)) eqn:Hd; [|done].
    injection Hstep as <-. simpl.
    destruct (pc (output w)); split_phases.
Qed.

Lemma run_phases ro params schedule : ∀ w w',
  phases w → run ro params schedule w = Some w' → phases w'.
Proof.
  induction schedule as [|l schedule IH]; intros w w' Hw Hrun; simpl in Hrun.
  - by injection Hrun as <-.
  - destruct (step ro params l w) as [w1|] eqn:Hstep; [|done].
    simpl in Hrun. eapply IH; [|done]. by eapply step_phases.
Qed.



(** X6: the goroutine that ends the process is the one whose send on
    [finish] completed.  After an interrupt was taken, [main] never gets past
    its own send and the process ends through [os.Exit(0)] in [catchSignals];
    after [main]'s send was taken, [catchSignals] never gets past its send and
    the process ends by [main] returning. *)
Theorem process_ended_by_sender (ro : rangeOrder) (params : outputParams)
    (fs0 : filesystem) (schedule : list label) (w : world) :
  run ro params schedule (world_init fs0) = Some w →
  exited w = true →
  (fired w = [EngineComplete] ∧ main_pc w = MainReturned
   ∧ catch_pc w ≠ CatchWaitDone ∧ catch_pc w ≠ CatchExited)
  ∨ (fired w = [Interrupted] ∧ catch_pc w = CatchExited
     ∧ main_pc w ≠ MainWaitDone ∧ main_pc w ≠ MainReturned).
Proof.
  intros Hrun Hexited.
  assert (Hphases : phases w) by (eapply run_phases; [apply phases_init|done]).
  unfold phases in Hphases.
  destruct (pc (output w)).
  { destruct Hphases as (_ & Hrunning & _). congruence. }
  destruct Hphases as [_ [(Hf & Hc & Hm)|(Hf & Hm & Hc)]].
  - left. destruct Hm as [[_ ?]|[Hm _]]; [congruence|].
    repeat split; try done; destruct Hc as [-> | ->]; done.
  - right. destruct Hc as [[_ ?]|[Hc _]]; [congruence|].
    repeat split; try done; destruct Hm as [-> | ->]; done.
Qed.

(** An interrupt arrives while the engine is still running. *)
Definition interrupted_run : list label :=
  [EngineEmit www_request; SelectResult; SignalArrive; SelectFinish Interrupted;
   EngineReturn; CatchDone].

Lemma process_ended_by_sender_witness :
  let w := world_after to_file stale_disk interrupted_run in
  (fired w = [EngineComplete] ∧ main_pc w = MainReturned
   ∧ catch_pc w ≠ CatchWaitDone ∧ catch_pc w ≠ CatchExited)
  ∨ (fired w = [Interrupted] ∧ catch_pc w = CatchExited
     ∧ main_pc w ≠ MainWaitDone ∧ main_pc w ≠ MainReturned).
Proof.
  apply (process_ended_by_sender key_order to_file stale_disk interrupted_run);
    vm_compute; reflexivity.
Defined.

(** X7: the protocol cannot get stuck.  From every state a run can reach in
    which the process has not exited, at most three further steps end the
    process with [done] closed: the engine returning if it has not yet, the
    pending send on [finish] being taken, and the waiting goroutine seeing
    [done]. *)
Theorem shutdown_can_always_complete (ro : rangeOrder) (params : outputParams)
    (fs0 : filesystem) (schedule : list label) (w : world) :
  run ro params schedule (world_init fs0) = Some w →
  exited w = false →
  ∃ rest w', (length rest ≤ 3)%nat
    ∧ run ro params rest w = Some w'
    ∧ exited w' = true ∧ done_closed (output w') = true.
Proof.
  intros Hrun Hexited.
  assert (Hphases : phases w) by (eapply run_phases; [apply phases_init|done]).
  unfold phases in Hphases.
  destruct (receive_finish_returned ro params (output w)) as [_ Hclosed].
  destruct (pc (output w)) eqn:Hpc.
  - destruct Hphases as (_ & _ & [Hm|Hm] & _).
    + exists [EngineReturn; SelectFinish EngineComplete; MainDone].
      destruct (run ro params
                  [EngineReturn; SelectFinish EngineComplete; MainDone] w)
        as [w'|] eqn:Hrest; simpl in Hrest; unfold step in Hrest;
        rewrite Hexited, Hm in Hrest; simpl in Hrest; rewrite Hpc in Hrest;
        simpl in Hrest; rewrite Hclosed in Hrest; simpl in Hrest; [|done].
      injection Hrest as <-. eexists. split; [simpl; lia|].
      split; [reflexivity|]. by split.
    + exists [SelectFinish EngineComplete; MainDone].
      destruct (run ro params [SelectFinish EngineComplete; MainDone] w)
        as [w'|] eqn:Hrest; simpl in Hrest; unfold step in Hrest;
        rewrite Hexited, Hm, Hpc in Hrest; simpl in Hrest;
        rewrite Hclosed in Hrest; simpl in Hrest; [|done].
      injection Hrest as <-. eexists. split; [simpl; lia|].
      split; [reflexivity|]. by split.
  - destruct Hphases as [Hdone [(_ & _ & [[Hm _]|[_ ?]])|(_ & _ & [[Hc _]|[_ ?]])]];
      try congruence.
    + exists [MainDone].
      destruct (run ro params [MainDone] w) as [w'|] eqn:Hrest;
        simpl in Hrest; unfold step in Hrest;
        rewrite Hexited, Hm, Hdone in Hrest; simpl in Hrest; [|done].
      injection Hrest as <-. eexists. split; [simpl; lia|].
      split; [reflexivity|]. by split.
    + exists [CatchDone].
      destruct (run ro params [CatchDone] w) as [w'|] eqn:Hrest;
        simpl in Hrest; unfold step in Hrest;
        rewrite Hexited, Hc, Hdone in Hrest; simpl in Hrest; [|done].
      injection Hrest as <-. eexists. split; [simpl; lia|].
      split; [reflexivity|]. by split.
Qed.

(** The engine has sent a request that is still in the channel. *)
Definition engine_running : list label := [EngineEmit www_request].

Lemma shutdown_can_always_complete_witness :
  ∃ rest w', (length rest ≤ 3)%nat
    ∧ run key_order to_file rest (world_after to_file stale_disk engine_running)
      = Some w'
    ∧ exited w' = true ∧ done_closed (output w') = true.
Proof.
  apply (shutdown_can_always_complete key_order to_file stale_disk
           engine_running); vm_compute; reflexivity.
Defined.

(** X8: standard output and the line buffer agree.  In every run, what has
    been printed is the text of [allLines], line for line in the order of
    arrival, followed after the loop by the summary when it was asked for and
    by nothing else. *)
Theorem printed_lines_are_allLines (ro : rangeOrder) (params : outputParams)
    (fs0 : filesystem) (schedule : list label) (w : world) :
  run ro params schedule (world_init fs0) = Some w →
  let st := vars (output w) in
  allLines st = lines_of params (consumed (output w))
  ∧ stdout (output w)
    = allLines st
      +:+ match pc (output w) with
          | OutSelect => EmptyString
          | OutReturned =>
              if Verbose params
              then printSummary ro (total st) (tags st) (asns st)
              else EmptyString
          end.
Proof.
  intros Hrun st.
  assert (Hw : coherent ro params fs0 w).
  { eapply run_coherent; [apply coherent_init|done]. }
  assert (Hlines : allLines st = lines_of params (consumed (output w))).
  { subst st. by rewrite (coh_vars _ _ _ _ Hw), consume_allLines. }
  split; [done|]. rewrite Hlines.
  destruct (pc (output w)) eqn:Hpc.
  - destruct (coh_select _ _ _ _ Hw Hpc) as (_ & _ & _ & _ & ->).
    by rewrite app_string_nil_r.
  - by destruct (coh_returned _ _ _ _ Hw Hpc) as (_ & _ & _ & ->).
Qed.

Lemma printed_lines_are_allLines_witness :
  let w := world_after to_file stale_disk two_results_then_finish in
  let st := vars (output w) in
  allLines st = lines_of to_file (consumed (output w))
  ∧ stdout (output w)
    = allLines st
      +:+ match pc (output w) with
          | OutSelect => EmptyString
          | OutReturned =>
              if Verbose to_file
              then printSummary key_order (total st) (tags st) (asns st)
              else EmptyString
          end.
Proof.
  apply (printed_lines_are_allLines key_order to_file stale_disk
           two_results_then_finish); vm_compute; reflexivity.
Defined.

(** ** Loaders and the lines they read *)

(** A file of lines that fit the scanner's buffer loads as its non-empty
    lines, each without the carriage return that may end it. *)
Lemma getFile_short_lines (fs : filesystem) (path : string)
    (lines : list string) (last : string) :
  path ∉ denied fs →
  files fs !! path = Some (terminated lines +:+ last) →
  Forall short_line lines → short_line last →
  getFile fs path
  = (filter (λ word, word ≠ EmptyString) (strip_cr <$> (lines ++ [last])),
     EmptyString).
Proof.
  intros Hfree Hfile Hlines Hlast. unfold getFile, os_Open.
  rewrite decide_False, Hfile by done.
  rewrite scan_words_filter, ScanLines_short_lines by done. simpl.
  f_equal. rewrite !fmap_app, !filter_app. f_equal.
  destruct (decide (last = EmptyString)) as [->|Hne]; [|done].
  simpl. rewrite filter_cons, decide_False; [done|]. intros Hn. by apply Hn.
Qed.

Lemma short_line_break_free (line : string) :
  line_break_free line → fits_buffer line → short_line line.
Proof. intros Hline Hfits. split; [by apply line_break_free_line_feed|done]. Qed.

Lemma strip_cr_lines (lines : list string) :
  Forall line_break_free lines → strip_cr <$> lines = lines.
Proof.
  induction 1 as [|line lines Hline _ IH]; [done|].
  rewrite fmap_cons. rewrite strip_cr_line_break_free by done. by rewrite IH.
Qed.

(** X9: a file whose lines are ended by line feeds loads as its non-empty
    lines, in order, when every line is without carriage return and shorter
    than [bufio.MaxScanTokenSize]; a last line without line feed is read
    like the others, and nothing is printed. *)
Theorem getFile_reads_back_lines (fs : filesystem) (path : string)
    (lines : list string) (last : string) :
  path ∉ denied fs →
  files fs !! path = Some (terminated lines +:+ last) →
  Forall line_break_free (lines ++ [last]) →
  Forall fits_buffer (lines ++ [last]) →
  getFile fs path
  = (filter (λ word, word ≠ EmptyString) (lines ++ [last]), EmptyString).
Proof.
  intros Hfree Hfile Hclean Hfits.
  assert (Hshort : Forall short_line (lines ++ [last])).
  { apply Forall_forall. intros line Hin. apply short_line_break_free.
    - by apply (proj1 (Forall_forall _ _) Hclean).
    - by apply (proj1 (Forall_forall _ _) Hfits). }
  apply Forall_app in Hshort as [Hlines Hlast].
  apply Forall_inv in Hlast.
  rewrite (getFile_short_lines fs path lines last) by done.
  by rewrite (strip_cr_lines _ Hclean).
Qed.

(** A text without line breaks, and short texts, by evaluation. *)
Ltac prove_line_break_free := unfold line_break_free; decide_closed.

Ltac prove_all_line_break_free :=
  repeat (apply Forall_cons_2; [prove_line_break_free|]); apply Forall_nil_2.

Ltac prove_all_fit_buffer :=
  repeat (apply Forall_cons_2;
          [unfold fits_buffer, MaxScanTokenSize; decide_closed|]);
  apply Forall_nil_2.

Definition wordlist_disk : filesystem :=
  {| files := {[ "words.txt"%string
                 := terminated ["www"; EmptyString; "mail"] +:+ "vpn" ]};
     denied := ∅ |}.

Lemma getFile_reads_back_lines_witness :
  getFile wordlist_disk "words.txt"
  = (filter (λ word, word ≠ EmptyString)
       (["www"; EmptyString; "mail"] ++ ["vpn"]), EmptyString).
Proof.
  apply (getFile_reads_back_lines wordlist_disk "words.txt"
           ["www"; EmptyString; "mail"] "vpn").
  - vm_compute. set_solver.
  - reflexivity.
  - prove_all_line_break_free.
  - prove_all_fit_buffer.
Defined.

(** X10: whatever the input holds, no word a loader returns contains a line
    feed, and every character of a word comes from the input read: the file
    for [getFile] and for [getWordlist] with a path, the fetched body for
    [getWordlist] without one. *)
Theorem loaded_words_have_no_line_feed (fs : filesystem)
    (http_Get : option string) (path word : string) (c : ascii) :
  c ∈ chars word →
  (word ∈ (getFile fs path).1 →
   c ≠ line_feed ∧ ∃ data, os_Open fs path = inr data ∧ c ∈ chars data)
  ∧ (word ∈ (getWordlist fs http_Get path).1 →
     c ≠ line_feed
     ∧ ∃ data, (if decide (path ≠ EmptyString) then os_Open fs path = inr data
                else http_Get = Some data)
               ∧ c ∈ chars data).
Proof.
  intros Hc.
  assert (Hscan : ∀ data, word ∈ scan_words (ScanLines data) [] →
            c ≠ line_feed ∧ c ∈ chars data).
  { intros data Hin. rewrite scan_words_filter in Hin. simpl in Hin.
    apply list_elem_of_filter in Hin as [_ Hin].
    destruct (scan_from_no_line_feed data EmptyString word 0%N c)
      as [Hlf [Hnil|Hd]];
      try done.
    - apply not_elem_of_nil.
    - by apply not_elem_of_nil in Hnil. }
  assert (Hfile : word ∈ (getFile fs path).1 →
            c ≠ line_feed ∧ ∃ data, os_Open fs path = inr data ∧ c ∈ chars data).
  { unfold getFile. destruct (os_Open fs path) as [err|data]; simpl.
    - intros Hnil. by apply not_elem_of_nil in Hnil.
    - intros Hin. destruct (Hscan data Hin). split; [done|]. by exists data. }
  split; [done|]. intros Hlist.
  unfold getWordlist in Hlist. destruct (decide (path ≠ EmptyString)).
  - by apply Hfile.
  - destruct http_Get as [body|]; simpl in Hlist.
    + destruct (Hscan body Hlist). split; [done|]. by exists body.
    + by apply not_elem_of_nil in Hlist.
Qed.

Lemma loaded_words_have_no_line_feed_witness :
  "m"%char ≠ line_feed
  ∧ ∃ data, os_Open wordlist_disk "words.txt" = inr data ∧ "m"%char ∈ chars data.
Proof.
  apply (loaded_words_have_no_line_feed wordlist_disk None "words.txt" "mail").
  - vm_compute. set_solver.
  - vm_compute. set_solver.
Defined.

(** X11: the output file can be given back as a domains file.  When lines
    carry neither source nor address and the names have no line break and
    are shorter than [bufio.MaxScanTokenSize], [getFile] on the file written
    at the end of a run returns the names of the results received, in order,
    without the empty ones. *)
Theorem output_file_reloads_as_names (ro : rangeOrder) (params : outputParams)
    (fs0 : filesystem) (schedule : list label) (w : world) :
  run ro params schedule (world_init fs0) = Some w →
  pc (output w) = OutReturned →
  FileOut params ≠ EmptyString → FileOut params ∉ denied fs0 →
  Sources params = false → PrintIPs params = false →
  Forall (λ r, line_break_free (amass.Name r) ∧ fits_buffer (amass.Name r))
    (consumed (output w)) →
  getFile (fsys (output w)) (FileOut params)
  = (filter (λ word, word ≠ EmptyString) (amass.Name <$> consumed (output w)),
     EmptyString).
Proof.
  intros Hrun Hpc Hpath Hfree Hsources Hips Hnames.
  assert (Hw : coherent ro params fs0 w).
  { eapply run_coherent; [apply coherent_init|done]. }
  destruct (coh_returned _ _ _ _ Hw Hpc) as (_ & _ & Hflush & _).
  unfold flushed in Hflush. rewrite decide_True in Hflush by done.
  injection Hflush as _ Hfs.
  rewrite (coh_vars _ _ _ _ Hw), consume_allLines in Hfs. simpl in Hfs.
  unfold ioutil_WriteFile in Hfs. rewrite decide_False in Hfs by done.
  simpl in Hfs.
  assert (Hlines : lines_of params (consumed (output w))
            = terminated (amass.Name <$> consumed (output w)) +:+ EmptyString).
  { rewrite app_string_nil_r. unfold lines_of, terminated.
    rewrite <- list_fmap_compose. f_equal. apply list_fmap_ext.
    intros i r _. unfold formatLine. by rewrite Hsources, Hips. }
  assert (Hclean : Forall line_break_free (amass.Name <$> consumed (output w))).
  { apply Forall_fmap. eapply Forall_impl; [exact Hnames|]. by intros r [? ?]. }
  assert (Hshort : Forall short_line (amass.Name <$> consumed (output w))).
  { apply Forall_fmap. eapply Forall_impl; [exact Hnames|].
    intros r [? ?]. by apply short_line_break_free. }
  rewrite (getFile_short_lines _ _ (amass.Name <$> consumed (output w))
             EmptyString).
  - f_equal. rewrite fmap_app, filter_app, strip_cr_lines by done.
    simpl. rewrite filter_cons, decide_False, filter_nil.
    + by rewrite app_nil_r.
    + intros Hn. by apply Hn.
  - by rewrite Hfs.
  - rewrite Hfs. simpl. rewrite lookup_insert_eq. by rewrite Hlines.
  - done.
  - split; [apply not_elem_of_nil|done].
Qed.

Definition names_to_file : outputParams :=
  {| Verbose := false; Sources := false; PrintIPs := false;
     FileOut := "results.txt" |}.

Lemma output_file_reloads_as_names_witness :
  let w := world_after names_to_file stale_disk two_results_then_finish in
  getFile (fsys (output w)) (FileOut names_to_file)
  = (filter (λ word, word ≠ EmptyString) (amass.Name <$> consumed (output w)),
     EmptyString).
Proof.
  apply (output_file_reloads_as_names key_order names_to_file stale_disk
           two_results_then_finish).
  - vm_compute. reflexivity.
  - vm_compute. reflexivity.
  - done.
  - vm_compute. set_solver.
  - reflexivity.
  - reflexivity.
  - repeat (apply Forall_cons_2;
            [split; [prove_line_break_free
                    |unfold fits_buffer, MaxScanTokenSize; decide_closed]|]).
    apply Forall_nil_2.
Defined.

(** ** The front of [main] *)

Module Main.

(** The command line after [flag.Parse]: the value of every flag and the
    positional arguments [flag.Args()].  [list_domains] is the variable
    [list] of [main] (flag [-l]); [recursive] is the value of the flag
    [-norecursive]. *)
Record commandLine := {
  help : bool;
  domainsfile : string;
  ip : bool;
  brute : bool;
  recursive : bool;
  verbose : bool;
  extra : bool;
  whois : bool;
  list_domains : bool;
  freq : Z;
  wordlist : string;
  file : string;
  args : list string;
}.

(** Modelled from the spec: the declaration of [AmassConfig] in the engine
    package [amass] (domains, wordlist, brute-forcing flag, recursion flag and
    query delay), with the fields [main] sets besides the output channel. *)
Record AmassConfig := {
  Domains : list string;
  Wordlist : list string;
  BruteForcing : bool;
  Recursive : bool;
  Frequency : Z;
}.

(** What [main] goes on to do: print the banner and the usage and return,
    print the domains and return, or start [manageOutput] and
    [catchSignals] and call [amass.StartAmass]. *)
Inductive outcome :=
  | Usage
  | Listing
  | Enumeration (config : AmassConfig) (params : outputParams).

Section main.
(** [amass.DefaultConfig().Frequency], [recon.ReverseWhois] and
    [amass.UniqueAppend], defined outside [main.go]. *)
Variable DefaultFrequency : Z.
Variable ReverseWhois : string → list string.
Variable UniqueAppend : list string → list string → list string.

(** [flag.Arg(0)]: the first positional argument, or the empty string. *)
Definition flag_Arg0 (cl : commandLine) : string :=
  default EmptyString (args cl !! 0%nat).

(** [domains] as it stands at the test [help || len(domains) == 0], and what
    [getFile] printed. *)
Definition collect_domains (cl : commandLine) (fs : filesystem)
  : list string * string :=
  let domains := args cl in
  if decide (domainsfile cl ≠ EmptyString) then
    let '(lines, printed) := getFile fs (domainsfile cl) in
    (domains ++ lines, printed)
  else (domains, EmptyString).

(** [main] up to the call of [amass.StartAmass]: what the loaders and the
    listing printed, and the outcome; [None] is a panic. *)
Definition main (cl : commandLine) (fs : filesystem) (http_Get : option string)
  : option (string * outcome) :=
  let verbose := if extra cl then true else verbose cl in
  let '(domains, printed) := collect_domains cl fs in
  if help cl || bool_decide (length domains = 0%nat) then
    Some (printed, Usage)
  else
    let domains :=
      if whois cl
      then (* Add the domains discovered by whois *)
           UniqueAppend domains (ReverseWhois (flag_Arg0 cl))
      else domains in
    if list_domains cl then
      (* Just show the domains and quit *)
      Some (printed +:+ concat_strings ((λ d, d +:+ newline) <$> domains),
            Listing)
    else
      let '(words, printed_words) := getWordlist fs http_Get (wordlist cl) in
      frequency ← Rate.freqToDuration DefaultFrequency (freq cl);
      Some (printed +:+ printed_words,
            Enumeration
              {| Domains := domains; Wordlist := words;
                 BruteForcing := brute cl; Recursive := recursive cl;
                 Frequency := frequency |}
              {| Verbose := verbose; Sources := extra cl; PrintIPs := ip cl;
                 FileOut := file cl |}).

End main.
End Main.

(** X12: [main] never panics on an [int64] frequency, and it shows the usage
    exactly when help is asked for or when there is no positional argument
    and the domains file gives no domain: no file is named, the file cannot
    be opened, or every line the scanner delivers from it is empty (the
    scanner delivers the lines before the first one of
    [bufio.MaxScanTokenSize] bytes or more). *)
Theorem main_usage_iff_no_domain (DefaultFrequency : Z)
    (ReverseWhois : string → list string)
    (UniqueAppend : list string → list string → list string)
    (cl : Main.commandLine) (fs : filesystem) (http_Get : option string) :
  in_int64 (Main.freq cl) →
  ∃ printed outcome,
    Main.main DefaultFrequency ReverseWhois UniqueAppend cl fs http_Get
    = Some (printed, outcome)
    ∧ (outcome = Main.Usage
       ↔ Main.help cl = true
         ∨ (Main.args cl = []
            ∧ (Main.domainsfile cl = EmptyString
               ∨ match os_Open fs (Main.domainsfile cl) with
                 | inl _ => True
                 | inr data =>
                     Forall (λ line, line = EmptyString) (ScanLines data)
                 end))).
Proof.
  intros Hfreq.
  assert (Hdomains : (Main.collect_domains cl fs).1 = []
    ↔ Main.args cl = []
      ∧ (Main.domainsfile cl = EmptyString
         ∨ match os_Open fs (Main.domainsfile cl) with
           | inl _ => True
           | inr data => Forall (λ line, line = EmptyString) (ScanLines data)
           end)).
  { unfold Main.collect_domains.
    destruct (decide (Main.domainsfile cl ≠ EmptyString)) as [Hfile|Hnone].
    - unfold getFile. destruct (os_Open fs (Main.domainsfile cl)) as [err|data].
      + simpl. rewrite app_nil_r. tauto.
      + simpl. rewrite scan_words_filter. simpl.
        split.
        * intros [Hargs Hlines]%app_eq_nil. split; [done|]. right.
          apply Forall_forall. intros line Hin.
          destruct (decide (line = EmptyString)) as [|Hne]; [done|].
          assert (line ∈ filter (λ w, w ≠ EmptyString) (ScanLines data))
            as Hf by by apply list_elem_of_filter.
          rewrite Hlines in Hf. by apply not_elem_of_nil in Hf.
        * intros [-> [Hempty|Hall]]; [done|]. simpl.
          induction Hall as [|line tokens -> _ IH]; [done|].
          rewrite filter_cons, decide_False; [done|]. intros Hn. by apply Hn.
    - apply dec_stable in Hnone. simpl. rewrite Hnone. tauto. }
  destruct (freqToDuration_value DefaultFrequency (Main.freq cl) Hfreq)
    as (d & Hd & _).
  unfold Main.main.
  destruct (Main.collect_domains cl fs) as [domains printed] eqn:Hcollect.
  simpl in Hdomains.
  destruct (Main.help cl) eqn:Hhelp; simpl.
  { eexists _, _. split; [done|]. split; [auto|done]. }
  destruct (bool_decide (length domains = 0%nat)) eqn:Hlen.
  { apply bool_decide_eq_true in Hlen. apply length_zero_iff_nil in Hlen.
    eexists _, _. split; [done|]. split; [|done]. intros _. right.
    by apply Hdomains. }
  apply bool_decide_eq_false in Hlen.
  assert (Hnot : ¬ (false = true ∨ Main.args cl = []
    ∧ (Main.domainsfile cl = EmptyString
       ∨ match os_Open fs (Main.domainsfile cl) with
         | inl _ => True
         | inr data => Forall (λ line, line = EmptyString) (ScanLines data)
         end))).
  { intros [?|Hno]; [done|]. apply Hdomains in Hno. subst domains. by apply Hlen. }
  destruct (Main.list_domains cl).
  { eexists _, _. split; [done|]. split; [done|]. intros H. by apply Hnot in H. }
  destruct (getWordlist fs http_Get (Main.wordlist cl)) as [words printed_words].
  rewrite Hd. simpl.
  eexists _, _. split; [done|]. split; [done|]. intros H. by apply Hnot in H.
Qed.

Definition blank_domains_disk : filesystem :=
  {| files := {[ "domains.txt"%string := newline +:+ newline ]}; denied := ∅ |}.

Definition only_a_blank_file : Main.commandLine :=
  {| Main.help := false; Main.domainsfile := "domains.txt"; Main.ip := false;
     Main.brute := true; Main.recursive := true; Main.verbose := false;
     Main.extra := true; Main.whois := false; Main.list_domains := false;
     Main.freq := 120; Main.wordlist := EmptyString;
     Main.file := "results.txt"; Main.args := [] |}.

Lemma main_usage_iff_no_domain_witness :
  ∃ printed outcome,
    Main.main 5000000 (λ _, []) (λ orig add, orig ++ add)
      only_a_blank_file blank_domains_disk None
    = Some (printed, outcome)
    ∧ (outcome = Main.Usage
       ↔ Main.help only_a_blank_file = true
         ∨ (Main.args only_a_blank_file = []
            ∧ (Main.domainsfile only_a_blank_file = EmptyString
               ∨ match os_Open blank_domains_disk
                         (Main.domainsfile only_a_blank_file) with
                 | inl _ => True
                 | inr data =>
                     Forall (λ line, line = EmptyString) (ScanLines data)
                 end))).
Proof.
  apply (main_usage_iff_no_domain 5000000 (λ _, []) (λ orig add, orig ++ add)
           only_a_blank_file blank_domains_disk None).
  unfold in_int64. simpl. lia.
Defined.

(** X13: every enumeration [main] starts is well formed.  Source display
    comes with the summary; the wordlist has no empty word; the query delay
    is the engine's default or lies between 2 milliseconds and 60 seconds;
    and without reverse whois the domains are the positional arguments
    followed by the words [getFile] returns for the domains file (its
    non-empty lines before the first one of [bufio.MaxScanTokenSize] bytes
    or more), at least one in all. *)
Theorem main_enumeration_well_formed (DefaultFrequency : Z)
    (ReverseWhois : string → list string)
    (UniqueAppend : list string → list string → list string)
    (cl : Main.commandLine) (fs : filesystem) (http_Get : option string)
    (printed : string) (config : Main.AmassConfig) (params : outputParams) :
  in_int64 (Main.freq cl) →
  Main.main DefaultFrequency ReverseWhois UniqueAppend cl fs http_Get
  = Some (printed, Main.Enumeration config params) →
  (Sources params = true → Verbose params = true)
  ∧ (EmptyString ∉ Main.Wordlist config)
  ∧ (Main.Frequency config = DefaultFrequency
     ∨ 2 * Rate.Millisecond ≤ Main.Frequency config ≤ 60 * Rate.Second)
  ∧ (Main.whois cl = false →
     Main.Domains config ≠ []
     ∧ Main.Domains config
       = Main.args cl
         ++ (if decide (Main.domainsfile cl ≠ EmptyString)
             then (getFile fs (Main.domainsfile cl)).1 else [])).
Proof.
  intros Hfreq Hmain. unfold Main.main in Hmain.
  assert (Hcollect : (Main.collect_domains cl fs).1
    = Main.args cl
      ++ (if decide (Main.domainsfile cl ≠ EmptyString)
          then (getFile fs (Main.domainsfile cl)).1 else [])).
  { unfold Main.collect_domains. case_decide.
    - by destruct (getFile fs (Main.domainsfile cl)).
    - simpl. by rewrite app_nil_r. }
  destruct (Main.collect_domains cl fs) as [domains out]. simpl in Hcollect.
  destruct (Main.help cl); simpl in Hmain; [done|].
  destruct (bool_decide (length domains = 0%nat)) eqn:Hlen; [done|].
  apply bool_decide_eq_false in Hlen.
  destruct (Main.list_domains cl); [done|].
  pose proof (proj2 (loaders_words fs http_Get (Main.wordlist cl))) as Hwords.
  destruct (getWordlist fs http_Get (Main.wordlist cl)) as [words out_words].
  destruct (freqToDuration_value DefaultFrequency (Main.freq cl) Hfreq)
    as (d & Hd & Hrange).
  rewrite Hd in Hmain. simpl in Hmain.
  injection Hmain as _ <- <-. simpl.
  split; [by intros ->|]. split; [done|]. split; [done|].
  intros ->. split; [|done]. intros ->. by apply Hlen.
Qed.

(** A command line with one positional domain, a domains file, a frequency
    and [-vv]. *)
Definition domains_disk : filesystem :=
  {| files := {[ "domains.txt"%string
                 := terminated ["example.org"; EmptyString; "example.net"] ]};
     denied := ∅ |}.

Definition enumerate_example : Main.commandLine :=
  {| Main.help := false; Main.domainsfile := "domains.txt"; Main.ip := true;
     Main.brute := true; Main.recursive := true; Main.verbose := false;
     Main.extra := true; Main.whois := false; Main.list_domains := false;
     Main.freq := 120; Main.wordlist := EmptyString;
     Main.file := "results.txt"; Main.args := ["example.com"] |}.

Definition fetched_wordlist : option string :=
  Some (terminated ["www"; EmptyString; "mail"]).

Definition example_config : Main.AmassConfig :=
  {| Main.Domains := ["example.com"; "example.org"; "example.net"];
     Main.Wordlist := ["www"; "mail"];
     Main.BruteForcing := true; Main.Recursive := true;
     Main.Frequency := 500 * Rate.Millisecond |}.

Definition example_params : outputParams :=
  {| Verbose := true; Sources := true; PrintIPs := true;
     FileOut := "results.txt" |}.

Lemma main_enumeration_well_formed_witness :
  Main.main 5000000 (λ _, []) (λ orig add, orig ++ add)
    enumerate_example domains_disk fetched_wordlist
  = Some (EmptyString, Main.Enumeration example_config example_params)
  ∧ (Sources example_params = true → Verbose example_params = true)
  ∧ (EmptyString ∉ Main.Wordlist example_config)
  ∧ (Main.Frequency example_config = 5000000
     ∨ 2 * Rate.Millisecond ≤ Main.Frequency example_config ≤ 60 * Rate.Second)
  ∧ (Main.whois enumerate_example = false →
     Main.Domains example_config ≠ []
     ∧ Main.Domains example_config
       = Main.args enumerate_example
         ++ (if decide (Main.domainsfile enumerate_example ≠ EmptyString)
             then (getFile domains_disk (Main.domainsfile enumerate_example)).1
             else [])).
Proof.
  assert (Hmain : Main.main 5000000 (λ _, []) (λ orig add, orig ++ add)
                    enumerate_example domains_disk fetched_wordlist
                  = Some (EmptyString,
                          Main.Enumeration example_config example_params))
    by (vm_compute; reflexivity).
  split; [exact Hmain|].
  apply (main_enumeration_well_formed 5000000 (λ _, []) (λ orig add, orig ++ add)
           enumerate_example domains_disk fetched_wordlist EmptyString);
    [|exact Hmain].
  unfold in_int64. simpl. lia.
Defined.

(** ** Counting during a run *)


